(** * Appeal: the Charm compiler and interpreter, embedded in Rocq

    A shallow embedding of the core of [appeal/__init__.py]: option-name
    normalisation, [ArgumentGroup], the Charm instruction set, the
    bookkeeping of [CharmCompiler] for duplicate options and its
    finalization pass, the queueing discipline of [Converter], the
    option-scope stack [CharmInterpreter.Options] and the two-phase loop
    of [CharmInterpreter.__call__].

    Conventions.
    - A Python [int] is a [Z]; [math.inf] is the extra point [Inf] of
      [bound].
    - A Python [str] is a [string]; [len] is [String.length].
    - Python objects that are mutated through several references
      (converters, the run-time copies of argument groups, the option
      dicts of the scope stack) live in explicit stores and are named by
      their address.
    - A function that can raise returns a [result]; loops that Python
      does not bound take fuel and answer [Timeout] when it runs out. *)

From stdpp Require Import gmap strings list fin_maps pretty.
From Stdlib Require Import ZArith Lia Ascii.

Local Open Scope Z_scope.

(* ===================================================================== *)
(** * Part I: definitions                                                *)
(* ===================================================================== *)

(** ** Exceptions and results *)

(** The exceptions the modelled code can raise.  The two Appeal
    exceptions carry their message; the built-in ones are told apart by
    class only. *)
Inductive exn :=
  | AppealUsageError (msg : string)
  | AppealConfigurationError (msg : string)
  | AssertionError
  | AttributeError
  | KeyError
  | ValueError
  | IndexError
  | RuntimeError
  | StopIteration
  | UnboundLocalError.

Inductive result (A : Type) :=
  | Ok (a : A)
  | Raise (e : exn)
  | Timeout.
Arguments Ok {A} a.
Arguments Raise {A} e.
Arguments Timeout {A}.

Definition bind {A B} (k : A → result B) (m : result A) : result B :=
  match m with
  | Ok a => k a
  | Raise e => Raise e
  | Timeout => Timeout
  end.

#[global] Instance result_ret : MRet result := @Ok.
#[global] Instance result_bind : MBind result := @bind.

Definition assert (b : bool) : result unit :=
  if b then Ok tt else Raise AssertionError.

(** ** Strings *)

(** [s.startswith(p)] *)
Fixpoint startswith (p s : string) : bool :=
  match p, s with
  | EmptyString, _ => true
  | String c p', String d s' => Ascii.eqb c d && startswith p' s'
  | String _ _, EmptyString => false
  end.

(** [len(s)] as a Python int *)
Definition len (s : string) : Z := Z.of_nat (String.length s).

(** [s.replace(c, r)] for a one-character pattern [c] *)
Fixpoint replace_char (c : ascii) (r : string) (s : string) : string :=
  match s with
  | EmptyString => EmptyString
  | String x s' =>
      if Ascii.eqb x c then r +:+ replace_char c r s'
      else String x (replace_char c r s')
  end.

(** [a.partition("=")]: the text before the first ["="], whether one was
    found, and the text after it. *)
Fixpoint partition_eq (a : string) : string * bool * string :=
  match a with
  | EmptyString => (EmptyString, false, EmptyString)
  | String x a' =>
      if Ascii.eqb x "="%char then (EmptyString, true, a')
      else let '(h, e, t) := partition_eq a' in (String x h, e, t)
  end.

(** ** Option names: [normalize_option], [denormalize_option] *)

Definition normalize_option (option : string) : result string :=
  _ ← assert (negb (String.eqb option ""));
  _ ← assert (negb (len option =? 1));
  _ ← assert (negb (len option =? 3));
  _ ← assert (startswith "-" option);
  if len option =? 2 then
    match option with
    | String _ (String c _) => Ok (String c EmptyString)   (* option[1] *)
    | _ => Raise IndexError
    end
  else
    _ ← assert (startswith "--" option);
    Ok option.

Definition denormalize_option (option : string) : result string :=
  _ ← assert (negb (String.eqb option ""));
  if len option =? 1 then Ok ("-" +:+ option) else Ok option.

(** ** [ArgumentGroup] *)

(** A minimum or maximum: an integer, or [math.inf]. *)
Inductive bound :=
  | Fin (n : Z)
  | Inf.

(** [a <= b] on Python numbers *)
Definition bound_leb (a b : bound) : bool :=
  match a, b with
  | Fin x, Fin y => x <=? y
  | _, Inf => true
  | Inf, Fin _ => false
  end.

(** [a == b] on Python numbers *)
Definition bound_eqb (a b : bound) : bool :=
  match a, b with
  | Fin x, Fin y => x =? y
  | Inf, Inf => true
  | _, _ => false
  end.

(** [b += 1] *)
Definition bound_incr (b : bound) : bound :=
  match b with
  | Fin n => Fin (n + 1)
  | Inf => Inf
  end.

Module ArgumentGroup.

Record t := mk {
minimum : bound;
maximum : bound;
optional : bool;
id : string;
count : Z;
laden : bool;
}.

(** [__init__]; every caller modelled here supplies the id. *)
Definition init (minimum maximum : bound) (id : string) (optional : bool) : t :=
{| minimum := minimum; maximum := maximum; optional := optional;
   id := id; count := 0; laden := false |}.

(** [satisfied]: [laden or count] is true when the flag is set or the
  count is not zero; [a <= b <= c] is [a <= b and b <= c]. *)
Definition satisfied (self : t) : bool :=
if optional self && negb (laden self || negb (count self =? 0)) then true
else bound_leb (minimum self) (Fin (count self))
     && bound_leb (Fin (count self)) (maximum self).

(** [copy] *)
Definition copy (self : t) : t :=
{| minimum := minimum self; maximum := maximum self;
   optional := optional self; id := id self;
   count := count self; laden := laden self |}.

Definition set_minimum (v : bound) (self : t) : t :=
{| minimum := v; maximum := maximum self; optional := optional self;
   id := id self; count := count self; laden := laden self |}.
Definition set_maximum (v : bound) (self : t) : t :=
{| minimum := minimum self; maximum := v; optional := optional self;
   id := id self; count := count self; laden := laden self |}.
Definition set_count (v : Z) (self : t) : t :=
{| minimum := minimum self; maximum := maximum self;
   optional := optional self; id := id self; count := v;
   laden := laden self |}.
Definition set_laden (v : bool) (self : t) : t :=
{| minimum := minimum self; maximum := maximum self;
   optional := optional self; id := id self; count := count self;
   laden := v |}.

End ArgumentGroup.

(** ** The Charm instruction set *)

(** What the interpreter needs of an [inspect.Parameter]: its name and
    the family of the converter class that the resolver
    [map_to_converter] selects for it.  [SimpleType] stands for the
    subclasses of [SimpleTypeConverter], which have no
    [kwargs_converters]; [Multi] for the subclasses of [MultiOption];
    [Plain] for every other [Converter]. *)
Inductive converter_class :=
  | SimpleType
  | Plain
  | Multi.

Record InspectParameter := mkParameter {
  p_name : string;
  p_cls : converter_class;
}.

(** One constructor per instruction class; the fields are the slots the
    compiler and the interpreter read.  A label is identified by its
    serial [id] ([label_id_counter]); a program by its serial [id]
    ([CharmProgram.next_id]).  The operands that only feed the usage
    text ([callable], [usage_callable], [usage_parameter]) are left
    out. *)
Inductive CharmInstruction :=
  | CharmInstructionJump (address : nat)
  | CharmInstructionBranchOnO (address : nat)
  | CharmInstructionCreateConverter (parameter : InspectParameter) (key : string)
      (is_command : bool)
  | CharmInstructionLoadConverter (key : string)
  | CharmInstructionLoadO (key : string)
  | CharmInstructionAppendToArgs (parameter : string) (discretionary : bool)
      (usage : option string)
  | CharmInstructionAddToKwargs (name : string)
  | CharmInstructionMapOption (option : string) (program : CharmProgram)
      (parameter : string) (key : string) (group : string)
  | CharmInstructionConsumeArgument (required : bool) (is_oparg : bool)
  | CharmInstructionFlushMultioption
  | CharmInstructionSetGroup (group : ArgumentGroup.t) (optional : bool)
      (repeating : bool)
  | CharmInstructionEnd (id : nat) (name : string)
  | CharmInstructionNoOp
  | CharmInstructionComment (comment : string)
  | CharmInstructionLabel (id : nat) (label : string)
  | CharmInstructionJumpToLabel (label : nat)
  | CharmInstructionBranchOnOToLabel (label : nat)
with CharmProgram :=
  | mkCharmProgram (name : string) (option_names : option string) (id : nat)
      (opcodes : list CharmInstruction)
      (options : gmap string (option string))
      (total : ArgumentGroup.t).

Definition prog_name (p : CharmProgram) : string :=
  let 'mkCharmProgram n _ _ _ _ _ := p in n.
Definition prog_option (p : CharmProgram) : option string :=
  let 'mkCharmProgram _ o _ _ _ _ := p in o.
Definition prog_id (p : CharmProgram) : nat :=
  let 'mkCharmProgram _ _ i _ _ _ := p in i.
Definition prog_opcodes (p : CharmProgram) : list CharmInstruction :=
  let 'mkCharmProgram _ _ _ c _ _ := p in c.
Definition prog_options (p : CharmProgram) : gmap string (option string) :=
  let 'mkCharmProgram _ _ _ _ o _ := p in o.
Definition prog_total (p : CharmProgram) : ArgumentGroup.t :=
  let 'mkCharmProgram _ _ _ _ _ t := p in t.

(** The [opcode] enum, for the tests [op.op == opcode.x]. *)
Inductive opcode :=
  | op_jump | op_branch_on_o | op_create_converter | op_load_converter
  | op_load_o | op_append_to_args | op_add_to_kwargs | op_map_option
  | op_consume_argument | op_flush_multioption | op_set_group | op_end
  | op_no_op | op_comment | op_label | op_jump_to_label
  | op_branch_on_o_to_label.

Definition op (i : CharmInstruction) : opcode :=
  match i with
  | CharmInstructionJump _ => op_jump
  | CharmInstructionBranchOnO _ => op_branch_on_o
  | CharmInstructionCreateConverter _ _ _ => op_create_converter
  | CharmInstructionLoadConverter _ => op_load_converter
  | CharmInstructionLoadO _ => op_load_o
  | CharmInstructionAppendToArgs _ _ _ => op_append_to_args
  | CharmInstructionAddToKwargs _ => op_add_to_kwargs
  | CharmInstructionMapOption _ _ _ _ _ => op_map_option
  | CharmInstructionConsumeArgument _ _ => op_consume_argument
  | CharmInstructionFlushMultioption => op_flush_multioption
  | CharmInstructionSetGroup _ _ _ => op_set_group
  | CharmInstructionEnd _ _ => op_end
  | CharmInstructionNoOp => op_no_op
  | CharmInstructionComment _ => op_comment
  | CharmInstructionLabel _ _ => op_label
  | CharmInstructionJumpToLabel _ => op_jump_to_label
  | CharmInstructionBranchOnOToLabel _ => op_branch_on_o_to_label
  end.

#[global] Instance opcode_eq_dec : EqDecision opcode.
Proof. solve_decision. Defined.

(** ** [CharmAssembler] *)

(** Assemblers are nested by reference and filled after they have been
    nested, so they live in a store (a list; the address is the index).
    [contents] holds instruction lists and addresses of nested
    assemblers.  In the source the last entry of [self.contents] is
    always the very list [self.opcodes]; here [contents] holds the
    entries before it and [opcodes] that last list. *)
Module CharmAssembler.

Inductive item :=
| Opcodes (l : list CharmInstruction)
| Nested (a : nat).

Record t := mk {
contents : list item;
opcodes : list CharmInstruction;
}.

Abbreviation store := (list t).

(** [clear], and the state [__init__] leaves *)
Definition clear : t := {| contents := []; opcodes := [] |}.

(** [_append_instruction], which every instruction method ends in *)
Definition _append_instruction (o : CharmInstruction) (self : t) : t :=
{| contents := contents self; opcodes := opcodes self ++ [o] |}.

(** [append] of an assembler [o] *)
Definition append (o : nat) (self : t) : t :=
match opcodes self with
| [] => {| contents := contents self ++ [Nested o]; opcodes := [] |}
| _ :: _ =>
    {| contents := contents self ++ [Opcodes (opcodes self); Nested o];
       opcodes := [] |}
end.

(** [__iter__], joined: the instruction lists of [self] and of the
  assemblers nested in it, in order.  The recursion follows the
  nesting, which the fuel bounds. *)
Fixpoint flatten (fuel : nat) (st : store) (a : nat)
  : result (list CharmInstruction) :=
match fuel with
| O => Timeout
| S fuel =>
    match st !! a with
    | None => Raise KeyError
    | Some self =>
        head ← foldl
          (λ acc it,
             l ← acc;
             match it with
             | Opcodes o => Ok (l ++ o)
             | Nested b => o ← flatten fuel st b; Ok (l ++ o)
             end)
          (Ok []) (contents self);
        Ok (head ++ opcodes self)
    end
end.

(** [__len__] *)
Definition len (fuel : nat) (st : store) (a : nat) : result Z :=
l ← flatten fuel st a; Ok (Z.of_nat (length l)).

(** [__bool__] *)
Definition bool (fuel : nat) (st : store) (a : nat) : result bool :=
l ← flatten fuel st a;
Ok (match l with [] => false | _ :: _ => true end).

(** [__getitem__] *)
Definition getitem (fuel : nat) (st : store) (a : nat) (index : nat)
  : result CharmInstruction :=
l ← flatten fuel st a;
match l !! index with
| Some o => Ok o
| None => Raise IndexError
end.

End CharmAssembler.

(** ** [CharmCompiler]: argument groups and duplicate options *)

(** [serial_number_generator(prefix=...)]: the [i]-th value *)
Definition serial_number (prefix : string) (i : nat) : string :=
  prefix +:+ pretty i.

Module CharmCompiler.

(** The attributes of the compiler that the modelled methods use.
  The program under construction is kept as its fields
  ([program_*]); assembler attributes hold store addresses, [None]
  for Python's [None]. *)
Record t := mk {
name : string;
program_option : option string;
program_id : nat;
program_options : gmap string (option string);
program_total : ArgumentGroup.t;
asm : CharmAssembler.store;
root_a : nat;
initial_a : nat;
final_a : nat;
option_depth : nat;
ag_a : option nat;
ag_initialize_a : option nat;
ag_options_a : option nat;
ag_duplicate_options_a : option nat;
body_a : option nat;
ag_options : gset string;
ag_duplicate_options : gset string;
next_argument_group_id : nat;
group_id : string;
}.

(** Enough fuel to walk the nesting of any acyclic store. *)
Definition depth (self : t) : nat := S (length (asm self)).

Definition set_asm (st : CharmAssembler.store) (self : t) : t :=
{| name := name self; program_option := program_option self;
   program_id := program_id self;
   program_options := program_options self;
   program_total := program_total self; asm := st;
   root_a := root_a self; initial_a := initial_a self;
   final_a := final_a self; option_depth := option_depth self;
   ag_a := ag_a self; ag_initialize_a := ag_initialize_a self;
   ag_options_a := ag_options_a self;
   ag_duplicate_options_a := ag_duplicate_options_a self;
   body_a := body_a self; ag_options := ag_options self;
   ag_duplicate_options := ag_duplicate_options self;
   next_argument_group_id := next_argument_group_id self;
   group_id := group_id self |}.

(** A new [CharmAssembler] object: its address and the grown store. *)
Definition new_assembler (self : t) : nat * t :=
(length (asm self), set_asm (asm self ++ [CharmAssembler.clear]) self).

(** A method call on the assembler at address [a]. *)
Definition on (a : nat) (f : CharmAssembler.t → CharmAssembler.t)
  (self : t) : result t :=
match asm self !! a with
| Some x => Ok (set_asm (<[a := f x]> (asm self)) self)
| None => Raise KeyError
end.

(** A method call on an attribute that may be [None]. *)
Definition on_attr (a : option nat) (f : CharmAssembler.t → CharmAssembler.t)
  (self : t) : result t :=
match a with
| Some a => on a f self
| None => Raise AttributeError
end.

(** Truth value of an assembler attribute: [None] is false, an
  assembler is true when it holds an instruction. *)
Definition truthy (a : option nat) (self : t) : result bool :=
match a with
| None => Ok false
| Some a => CharmAssembler.bool (depth self) (asm self) a
end.

(** [maybe_clear_a], the helper of [clean_up_argument_group] *)
Definition maybe_clear_a (a : option nat) (self : t) : result t :=
match a with
| None => Ok self
| Some a =>
    n ← CharmAssembler.len (depth self) (asm self) a;
    if n =? 1 then
      o ← CharmAssembler.getitem (depth self) (asm self) a 0;
      if bool_decide (op o = op_comment) || bool_decide (op o = op_label)
      then on a (λ _, CharmAssembler.clear) self
      else Ok self
    else Ok self
end.

(** [clean_up_argument_group] *)
Definition clean_up_argument_group (self : t) : result t :=
b ← truthy (ag_a self) self;
if b : Datatypes.bool then
  self ←
    (if bool_decide (ag_options self = ∅) then Ok self
     else
       match ag_options_a self with
       | None => Raise AttributeError
       | Some oa =>
           self ← on_attr (ag_initialize_a self) (CharmAssembler.append oa) self;
           Ok {| name := name self; program_option := program_option self;
                 program_id := program_id self;
                 program_options := program_options self;
                 program_total := program_total self; asm := asm self;
                 root_a := root_a self; initial_a := initial_a self;
                 final_a := final_a self;
                 option_depth := option_depth self;
                 ag_a := ag_a self;
                 ag_initialize_a := ag_initialize_a self;
                 ag_options_a := ag_options_a self;
                 ag_duplicate_options_a := ag_duplicate_options_a self;
                 body_a := body_a self; ag_options := ∅;
                 ag_duplicate_options := ag_duplicate_options self;
                 next_argument_group_id := next_argument_group_id self;
                 group_id := group_id self |}
       end);
  self ← maybe_clear_a (ag_initialize_a self) self;
  self ← maybe_clear_a (ag_options_a self) self;
  self ← maybe_clear_a (ag_duplicate_options_a self) self;
  maybe_clear_a (body_a self) self
else Ok self.

(** [new_argument_group]; the [set_group] instruction it returns is
  the last one of [ag_initialize_a]. *)
Definition new_argument_group (optional : Datatypes.bool) (self : t) : result t :=
self ← clean_up_argument_group self;
let gid := serial_number (name self +:+ " ag-") (next_argument_group_id self) in
let '(ag, self) := new_assembler self in
self ← on (root_a self) (CharmAssembler.append ag) self;
let '(ini, self) := new_assembler self in
self ← on ini (CharmAssembler._append_instruction
  (CharmInstructionComment
     (name self +:+ " argument group '" +:+ gid +:+ "' initialization"))) self;
self ← on ag (CharmAssembler.append ini) self;
let '(opts, self) := new_assembler self in
self ← on opts (CharmAssembler._append_instruction
  (CharmInstructionComment
     (name self +:+ " argument group '" +:+ gid +:+ "' options"))) self;
let '(body, self) := new_assembler self in
self ← on body (CharmAssembler._append_instruction
  (CharmInstructionComment
     (name self +:+ " argument group '" +:+ gid +:+ "' body"))) self;
self ← on ag (CharmAssembler.append body) self;
self ← on ini (CharmAssembler._append_instruction
  (CharmInstructionSetGroup
     (ArgumentGroup.init (Fin 0) (Fin 0) gid optional) optional false)) self;
Ok {| name := name self; program_option := program_option self;
      program_id := program_id self;
      program_options := program_options self;
      program_total := program_total self; asm := asm self;
      root_a := root_a self; initial_a := initial_a self;
      final_a := final_a self; option_depth := option_depth self;
      ag_a := Some ag; ag_initialize_a := Some ini;
      ag_options_a := Some opts; ag_duplicate_options_a := None;
      body_a := Some body; ag_options := ag_options self;
      ag_duplicate_options := ∅;
      next_argument_group_id := S (next_argument_group_id self);
      group_id := gid |}.

(** [__init__]: [name] and [option] are its arguments; [id] and
  [total_id] are the serial numbers that the class-wide generators
  of [CharmProgram] and [ArgumentGroup] hand out. *)
Definition init (name : string) (option : option string) (id : nat)
  (total_id : string) : result t :=
new_argument_group false
  {| name := name; program_option := option; program_id := id;
     program_options := ∅;
     program_total := ArgumentGroup.init (Fin 0) (Fin 0) total_id false;
     asm := [ CharmAssembler.append 1 CharmAssembler.clear;
              CharmAssembler.clear; CharmAssembler.clear ];
     root_a := 0; initial_a := 1; final_a := 2; option_depth := 0;
     ag_a := None; ag_initialize_a := None; ag_options_a := None;
     ag_duplicate_options_a := None; body_a := None;
     ag_options := ∅; ag_duplicate_options := ∅;
     next_argument_group_id := 1; group_id := "" |}.

(** [reset_duplicate_options_a] *)
Definition reset_duplicate_options_a (self : t) : result t :=
'(dups, self) ←
  (if bool_decide (ag_duplicate_options self = ∅) then
     b ← truthy (ag_duplicate_options_a self) self;
     if b : Datatypes.bool then
       self ← on_attr (ag_duplicate_options_a self)
                (λ _, CharmAssembler.clear) self;
       Ok (ag_duplicate_options self, self)
     else Ok (ag_duplicate_options self, self)
   else Ok (∅, self));
let '(a, self) := new_assembler self in
self ← on a (CharmAssembler._append_instruction
  (CharmInstructionComment
     (name self +:+ " argument group " +:+ group_id self
      +:+ " duplicate options"))) self;
self ← on_attr (body_a self) (CharmAssembler.append a) self;
Ok {| name := name self; program_option := program_option self;
      program_id := program_id self;
      program_options := program_options self;
      program_total := program_total self; asm := asm self;
      root_a := root_a self; initial_a := initial_a self;
      final_a := final_a self; option_depth := option_depth self;
      ag_a := ag_a self; ag_initialize_a := ag_initialize_a self;
      ag_options_a := ag_options_a self;
      ag_duplicate_options_a := Some a;
      body_a := body_a self; ag_options := ag_options self;
      ag_duplicate_options := dups;
      next_argument_group_id := next_argument_group_id self;
      group_id := group_id self |}.

Definition set_options (a d : gset string) (self : t) : t :=
{| name := name self; program_option := program_option self;
   program_id := program_id self;
   program_options := program_options self;
   program_total := program_total self; asm := asm self;
   root_a := root_a self; initial_a := initial_a self;
   final_a := final_a self; option_depth := option_depth self;
   ag_a := ag_a self; ag_initialize_a := ag_initialize_a self;
   ag_options_a := ag_options_a self;
   ag_duplicate_options_a := ag_duplicate_options_a self;
   body_a := body_a self; ag_options := a;
   ag_duplicate_options := d;
   next_argument_group_id := next_argument_group_id self;
   group_id := group_id self |}.

Definition set_program_options (o : gmap string (option string)) (self : t) : t :=
{| name := name self; program_option := program_option self;
   program_id := program_id self;
   program_options := o;
   program_total := program_total self; asm := asm self;
   root_a := root_a self; initial_a := initial_a self;
   final_a := final_a self; option_depth := option_depth self;
   ag_a := ag_a self; ag_initialize_a := ag_initialize_a self;
   ag_options_a := ag_options_a self;
   ag_duplicate_options_a := ag_duplicate_options_a self;
   body_a := body_a self; ag_options := ag_options self;
   ag_duplicate_options := ag_duplicate_options self;
   next_argument_group_id := next_argument_group_id self;
   group_id := group_id self |}.

(** The loop that ends [compile_options]: the decision where the
  [map_option] instruction of each option goes, or that the option
  cannot be mapped again. *)
Fixpoint compile_options_loop (options : list string)
  (program : CharmProgram) (parameter key group_id : string)
  (self : t) : result t :=
match options with
| [] => Ok self
| option :: options =>
    '(destination, self) ←
      (if bool_decide (option ∉ ag_options self) then
         Ok (ag_options_a self,
             set_options ({[option]} ∪ ag_options self)
               (ag_duplicate_options self) self)
       else
         b ← truthy (ag_duplicate_options_a self) self;
         if b : Datatypes.bool then
           if bool_decide (option ∈ ag_duplicate_options self) then
             d ← denormalize_option option;
             Raise (AppealConfigurationError
               ("multiple definitions of option " +:+ d +:+
                " are ambiguous (no arguments consumed in between definitions)"))
           else
             Ok (ag_duplicate_options_a self,
                 set_options (ag_options self)
                   ({[option]} ∪ ag_duplicate_options self) self)
         else
           d ← denormalize_option option;
           Raise (AppealConfigurationError
             ("argument group initialized with multiple definitions of option "
              +:+ d +:+ ", ambiguous")));
    self ← on_attr destination
      (CharmAssembler._append_instruction
         (CharmInstructionMapOption option program parameter key group_id))
      self;
    compile_options_loop options program parameter key group_id self
end.

(** The hand-coded program of an option that takes one required
  [str]; [group_id] is the serial number it draws from
  [next_argument_group_id]. *)
Definition simple_str_program (program_name option_names : string)
  (id : nat) (total_id group_id key parameter : string) : CharmProgram :=
mkCharmProgram program_name (Some option_names) id
  [ CharmInstructionSetGroup
      (ArgumentGroup.init (Fin 1) (Fin 1) group_id false) false false;
    CharmInstructionLoadConverter key;
    CharmInstructionConsumeArgument true true;
    CharmInstructionAddToKwargs parameter;
    CharmInstructionEnd id program_name ]
  ∅ (ArgumentGroup.init (Fin 1) (Fin 1) total_id false).

(** [compile_options], given the program of the option: either the
  hand-coded one ([recursed = false]) or the one a nested compiler
  returned, whose option table is then merged into ours. *)
Definition compile_options (key parameter : string) (options : list string)
  (program : CharmProgram) (recursed : Datatypes.bool) (group_id : string)
  (self : t) : result t :=
_ ← assert (match options with [] => false | _ => true end);
let self := set_program_options
  (foldl (λ m o, <[o := program_option self]> m)
     (program_options self) options) self in
let self :=
  if recursed
  then set_program_options
         (prog_options program ∪ program_options self) self
  else self in
compile_options_loop options program parameter key group_id self.

(** The instructions [compile_parameter] emits for a positional
  parameter read as a plain [str]: load, consume, append, and a
  fresh buffer for duplicate options. *)
Definition compile_positional_str (converter_key parameter_name : string)
  (required : Datatypes.bool) (usage : option string) (self : t) : result t :=
self ← on_attr (body_a self) (CharmAssembler._append_instruction
  (CharmInstructionLoadConverter converter_key)) self;
self ← on_attr (body_a self) (CharmAssembler._append_instruction
  (CharmInstructionConsumeArgument required
     (negb (Nat.eqb (option_depth self) 0)))) self;
self ← on_attr (body_a self) (CharmAssembler._append_instruction
  (CharmInstructionAppendToArgs parameter_name false usage)) self;
reset_duplicate_options_a self.

(** *** [finalize] *)

(** The module-wide switch [want_prints]; the source leaves it at 0. *)
Definition want_prints : Datatypes.bool := false.

(** The variables of the first loop of [finalize].  [kept] is the
  part [p[:i]] of the program already scanned, [group] the position
  in [kept] of the [set_group] instruction whose [ArgumentGroup]
  the variable [group] refers to: the loop updates that object in
  place, inside the instruction. *)
Record scan := mkScan {
kept : list CharmInstruction;
labels : gmap nat nat;
jump_fixups : list nat;
total : ArgumentGroup.t;
group : option nat;
optional : Datatypes.bool;
converter : option string;
o : option string;
}.

Definition scan_init (total : ArgumentGroup.t) : scan :=
{| kept := []; labels := ∅; jump_fixups := []; total := total;
   group := None; optional := false; converter := None; o := None |}.

(** [group.minimum += 1; group.maximum += 1] on the group of a
  [set_group] instruction *)
Definition incr_group (i : CharmInstruction) : CharmInstruction :=
match i with
| CharmInstructionSetGroup g opt rep =>
    CharmInstructionSetGroup
      (ArgumentGroup.set_maximum (bound_incr (ArgumentGroup.maximum g))
         (ArgumentGroup.set_minimum (bound_incr (ArgumentGroup.minimum g)) g))
      opt rep
| _ => i
end.

(** The block "compute total and group values".  [i] is the index of
  [op]; an [ArgumentGroup] object is always true, so [if total] is
  passed and [if group] tests for [None]. *)
Definition scan_arity (i : nat) (op : CharmInstruction) (s : scan) : scan :=
match op with
| CharmInstructionSetGroup _ opt rep =>
    {| kept := kept s; labels := labels s; jump_fixups := jump_fixups s;
       total := if rep then ArgumentGroup.set_maximum Inf (total s)
                else total s;
       group := Some i; optional := opt;
       converter := converter s; o := o s |}
| CharmInstructionConsumeArgument _ _ =>
    let t := total s in
    let t := if optional s then t
             else ArgumentGroup.set_minimum
                    (bound_incr (ArgumentGroup.minimum t)) t in
    let t := ArgumentGroup.set_maximum
               (bound_incr (ArgumentGroup.maximum t)) t in
    {| kept := match group s with
               | Some j => alter incr_group j (kept s)
               | None => kept s
               end;
       labels := labels s; jump_fixups := jump_fixups s;
       total := t; group := group s; optional := optional s;
       converter := converter s; o := o s |}
| _ => s
end.

Definition set_registers (c o' : option string) (s : scan) : scan :=
{| kept := kept s; labels := labels s; jump_fixups := jump_fixups s;
   total := total s; group := group s; optional := optional s;
   converter := c; o := o' |}.

(** [i += 1] past an instruction that stays in the program *)
Definition keep (op : CharmInstruction) (s : scan) : scan :=
{| kept := kept s ++ [op]; labels := labels s;
   jump_fixups := jump_fixups s; total := total s; group := group s;
   optional := optional s; converter := converter s; o := o s |}.

(** One iteration of the first loop, on the instruction [op = p[i]]. *)
Definition scan_step (op : CharmInstruction) (s : scan) : result scan :=
let i := length (kept s) in
match op with
| CharmInstructionLabel id label =>
    match labels s !! id with
    | Some _ =>
        Raise (AppealConfigurationError
          ("label used twice: <label id=" +:+ pretty id +:+ " label='"
           +:+ label +:+ "'>"))
    | None =>
        Ok {| kept := kept s; labels := <[id := i]> (labels s);
              jump_fixups := jump_fixups s; total := total s;
              group := group s; optional := optional s;
              converter := None; o := None |}
    end
| _ =>
    let s :=
      match op with
      | CharmInstructionJumpToLabel _ | CharmInstructionBranchOnOToLabel _ =>
          {| kept := kept s; labels := labels s;
             jump_fixups := jump_fixups s ++ [i]; total := total s;
             group := group s; optional := optional s;
             converter := converter s; o := o s |}
      | _ => s
      end in
    match op with
    | CharmInstructionNoOp => Ok s
    | CharmInstructionComment _ =>
        if want_prints then Ok (keep op s) else Ok s
    | _ =>
        (* a [set_group] is in place at index [i] before the
           variable [group] can be used *)
        let s := scan_arity i op s in
        match op with
        | CharmInstructionLoadConverter key =>
            if bool_decide (converter s = Some key) then Ok s
            else Ok (keep op (set_registers (Some key) (o s) s))
        | CharmInstructionLoadO key =>
            if bool_decide (o s = Some key) then Ok s
            else Ok (keep op (set_registers (converter s) (Some key) s))
        | CharmInstructionCreateConverter _ key _ =>
            Ok (keep op (set_registers (converter s) (Some key) s))
        | CharmInstructionConsumeArgument _ _ =>
            Ok (keep op (set_registers (converter s) (Some "(string value)") s))
        | _ => Ok (keep op s)
        end
    end
end.

(** The first loop: [while i < len(p)]. *)
Fixpoint scan_loop (p : list CharmInstruction) (s : scan) : result scan :=
match p with
| [] => Ok s
| op :: p => s ← scan_step op s; scan_loop p s
end.

(** The second loop: each [*_to_label] becomes an absolute jump. *)
Fixpoint fix_jumps (labels : gmap nat nat) (fixups : list nat)
  (p : list CharmInstruction) : result (list CharmInstruction) :=
match fixups with
| [] => Ok p
| i :: fixups =>
    match p !! i with
    | Some (CharmInstructionJumpToLabel l) =>
        match labels !! l with
        | Some address =>
            fix_jumps labels fixups (<[i := CharmInstructionJump address]> p)
        | None =>
            Raise (AppealConfigurationError ("unknown label " +:+ pretty l))
        end
    | Some (CharmInstructionBranchOnOToLabel l) =>
        match labels !! l with
        | Some address =>
            fix_jumps labels fixups (<[i := CharmInstructionBranchOnO address]> p)
        | None =>
            Raise (AppealConfigurationError ("unknown label " +:+ pretty l))
        end
    | Some _ => Raise KeyError       (* [opcode_map[op.op]] *)
    | None => Raise IndexError
    end
end.

(** The inner [while True] of the third loop, for the jump at [i]. *)
Fixpoint collapse_jump (fuel : nat) (i : nat) (p : list CharmInstruction)
  : result (list CharmInstruction) :=
match fuel with
| O => Timeout
| S fuel =>
    let retarget (address : nat)
        (mk : nat → CharmInstruction) :=
      match p !! address with
      | None => Raise IndexError
      | Some (CharmInstructionJump address2) =>
          collapse_jump fuel i (<[i := mk address2]> p)
      | Some _ => Ok p
      end in
    match p !! i with
    | Some (CharmInstructionJump address) =>
        retarget address CharmInstructionJump
    | Some (CharmInstructionBranchOnO address) =>
        retarget address CharmInstructionBranchOnO
    | Some _ => Raise AttributeError
    | None => Raise IndexError
    end
end.

(** The third loop: jumps to jumps. *)
Fixpoint collapse_jumps (fixups : list nat) (p : list CharmInstruction)
  : result (list CharmInstruction) :=
match fixups with
| [] => Ok p
| i :: fixups =>
    p ← collapse_jump (S (length p)) i p; collapse_jumps fixups p
end.

(** The three loops of [finalize] on the assembled instructions [p]:
  the finished instruction list and the aggregate group [total]. *)
Definition finalize_opcodes (p : list CharmInstruction)
  (total : ArgumentGroup.t)
  : result (list CharmInstruction * ArgumentGroup.t) :=
s ← scan_loop p (scan_init total);
p ← fix_jumps (labels s) (jump_fixups s) (kept s);
p ← collapse_jumps (jump_fixups s) p;
Ok (p, CharmCompiler.total s).

(** [finalize], and the program [__call__] then returns *)
Definition finalize (self : t) : result CharmProgram :=
self ← clean_up_argument_group self;
self ← on (final_a self) (CharmAssembler._append_instruction
  (CharmInstructionEnd (program_id self) (name self))) self;
self ← on (root_a self) (CharmAssembler.append (final_a self)) self;
p ← CharmAssembler.flatten (depth self) (asm self) (root_a self);
'(p, total) ← finalize_opcodes p (program_total self);
Ok (mkCharmProgram (name self) (program_option self) (program_id self)
      p (program_options self) total).

End CharmCompiler.

(** ** [Converter]: queueing and unqueueing *)

(** Converters refer to each other ([queued] points to the parent, the
    argument lists to children) and are updated in place, so they live
    in a store; the address is the index. *)
Module Converter.

(** What a register or an argument list can hold: [None], a string
  from the command line, or a converter. *)
Inductive value :=
| VNone
| VStr (s : string)
| VConv (a : nat).

#[global] Instance value_eq_dec : EqDecision value.
Proof. solve_decision. Defined.

(** Truth value: [None] and the empty string are false; no converter
  class defines [__bool__] or [__len__]. *)
Definition truthy (v : value) : bool :=
match v with
| VNone => false
| VStr s => negb (String.eqb s "")
| VConv _ => true
end.

(** The mutable state of a converter ([reset]), the parameter it was
  created for, and for a [MultiOption] its [multi_converters]. *)
Record t := mk {
parameter : InspectParameter;
is_command : bool;
queued : option nat;
args_queue : list nat;
args_converters : list value;
kwargs_converters : gmap string value;
multi_converters : list (list value * gmap string value);
}.

Abbreviation store := (list t).

(** [cls(parameter, appeal, is_command=...)] *)
Definition init (parameter : InspectParameter) (is_command : bool) : t :=
{| parameter := parameter; is_command := is_command; queued := None;
   args_queue := []; args_converters := []; kwargs_converters := ∅;
   multi_converters := [] |}.

Definition set_queued (q : option nat) (self : t) : t :=
{| parameter := parameter self; is_command := is_command self;
   queued := q; args_queue := args_queue self;
   args_converters := args_converters self;
   kwargs_converters := kwargs_converters self;
   multi_converters := multi_converters self |}.

Definition set_args (queue : list nat) (args : list value) (self : t) : t :=
{| parameter := parameter self; is_command := is_command self;
   queued := queued self; args_queue := queue;
   args_converters := args;
   kwargs_converters := kwargs_converters self;
   multi_converters := multi_converters self |}.

Definition set_kwargs (kw : gmap string value) (self : t) : t :=
{| parameter := parameter self; is_command := is_command self;
   queued := queued self; args_queue := args_queue self;
   args_converters := args_converters self;
   kwargs_converters := kw;
   multi_converters := multi_converters self |}.

(** Attribute access through a reference. *)
Definition get (h : store) (a : nat) : result t :=
match h !! a with
| Some c => Ok c
| None => Raise AttributeError
end.

(** Attribute assignment through a reference. *)
Definition update (a : nat) (f : t → t) (h : store) : result store :=
match h !! a with
| Some c => Ok (<[a := f c]> h)
| None => Raise AttributeError
end.

(** The [while True] loop of [unqueue]: pop children off the left of
  [self.args_queue] (here [queue]) onto [self.args_converters]
  until [converter] has been moved. *)
Fixpoint flush (self converter : nat) (queue : list nat) (h : store)
  : result store :=
match queue with
| [] => Raise IndexError
| child :: queue =>
    h ← update self
          (λ c, set_args queue (args_converters c ++ [VConv child]) c) h;
    h ← update child (set_queued None) h;
    if bool_decide (child = converter) then Ok h
    else flush self converter queue h
end.

(** [unqueue]; the recursion climbs the [queued] pointers, and the
  fuel bounds the climb. *)
Fixpoint unqueue (fuel : nat) (self : nat) (converter : option nat)
  (h : store) : result store :=
match fuel with
| O => Timeout
| S fuel =>
    c ← get h self;
    h ← match queued c with
         | Some parent =>
             h ← unqueue fuel parent (Some self) h;
             update self (set_queued None) h
         | None => Ok h
         end;
    match converter with
    | None => Ok h
    | Some converter =>
        c ← get h self;
        if bool_decide (converter ∈ args_queue c)
        then flush self converter (args_queue c) h
        else Ok h                       (* [except ValueError: pass] *)
    end
end.

(** [o.queued] for a value [o] that need not be a converter. *)
Definition queued_of (h : store) (o : value) : result (option nat) :=
match o with
| VConv a => c ← get h a; Ok (queued c)
| _ => Raise AttributeError
end.

(** [append_converter] *)
Definition append_converter (fuel : nat) (self : nat) (o : value)
  (h : store) : result store :=
h ← update self
      (λ c, set_args (args_queue c) (args_converters c ++ [o]) c) h;
match o with
| VStr _ => unqueue fuel self None h
| _ =>
    q ← queued_of h o;
    _ ← assert (bool_decide (q = None));
    c ← get h self;
    match queued c, o with
    | Some _, VConv a => update a (set_queued (Some self)) h
    | _, _ => Ok h
    end
end.

(** [queue_converter] *)
Definition queue_converter (self : nat) (o : value) (h : store)
  : result store :=
q ← queued_of h o;
_ ← assert (bool_decide (q = None));
match o with
| VConv a =>
    h ← update a (set_queued (Some self)) h;
    update self
      (λ c, set_args (args_queue c ++ [a]) (args_converters c) c) h
| _ => Raise AttributeError
end.

(** [MultiOption.flush]: keep the arguments gathered so far, then
  [reset]. *)
Definition flush_multi (self : t) : t :=
{| parameter := parameter self; is_command := is_command self;
   queued := None; args_queue := []; args_converters := [];
   kwargs_converters := ∅;
   multi_converters :=
     multi_converters self
     ++ [(args_converters self, kwargs_converters self)] |}.

End Converter.

(** ** [CharmInterpreter.Options]: the option-scope stack *)

Module Options.

(** An options dict: option name to (program, group id). *)
Abbreviation dict := (gmap string (CharmProgram * string)).

(** The dicts are shared by reference between [self.options],
  [self.stack] and [self.token_to_dict], and every dict has exactly
  one token ([reset] is the only place that creates either).  So
  the dicts are stored once, in [token_to_dict]; [stack] lists the
  tokens of the entries below the top, nearest first, and
  [self.options] is the dict of [token].  [dict_id_to_token] is
  this correspondence read backwards and is not stored.
  [next_token] counts the tokens handed out. *)
Record t := mk {
stack : list nat;
token_to_dict : gmap nat dict;
token : nat;
next_token : nat;
}.

(** [self.options] *)
Definition options (self : t) : result dict :=
match token_to_dict self !! token self with
| Some d => Ok d
| None => Raise KeyError
end.

(** [reset] *)
Definition reset (self : t) : t :=
{| stack := stack self;
   token_to_dict := <[next_token self := ∅]> (token_to_dict self);
   token := next_token self;
   next_token := S (next_token self) |}.

(** [__init__] *)
Definition init : t :=
reset {| stack := []; token_to_dict := ∅; token := 0; next_token := 1 |}.

(** [push] *)
Definition push (self : t) : t :=
reset {| stack := token self :: stack self;
         token_to_dict := token_to_dict self;
         token := token self; next_token := next_token self |}.

(** [pop] *)
Definition pop (self : t) : result t :=
_ ← options self;
match stack self with
| [] => Raise IndexError
| tok :: stack =>
    Ok {| stack := stack;
          token_to_dict := delete (token self) (token_to_dict self);
          token := tok; next_token := next_token self |}
end.

(** [d1 != d2] on dicts: Python compares keys and values, a program by
  identity, for which its serial [id] stands. *)
Definition dict_ne (d1 d2 : dict) : bool :=
negb (bool_decide
  ((λ v : CharmProgram * string, (prog_id v.1, v.2)) <$> d1
   = (λ v : CharmProgram * string, (prog_id v.1, v.2)) <$> d2)).

(** The [while] loop of [pop_until_token]; it pops at most once per
  stack entry. *)
Fixpoint pop_while (n : nat) (options_to_stop_at : dict) (self : t)
  : result t :=
match n with
| O => Ok self
| S n =>
    d ← options self;
    if match stack self with [] => false | _ => true end
       && dict_ne d options_to_stop_at
    then self ← pop self; pop_while n options_to_stop_at self
    else Ok self
end.

(** [pop_until_token]; an empty dict is false, like a missing one. *)
Definition pop_until_token (tok : nat) (self : t) : result t :=
if bool_decide (token self = tok) then Ok self
else
  match token_to_dict self !! tok with
  | None => Raise ValueError
  | Some options_to_stop_at =>
      if bool_decide (options_to_stop_at = ∅) then Raise ValueError
      else
        self ← pop_while (length (stack self)) options_to_stop_at self;
        d ← options self;
        if dict_ne d options_to_stop_at then Raise ValueError
        else Ok self
  end.

(** [unmap_all_child_options]: [for _ in range(len(self.stack))] *)
Fixpoint pop_times (n : nat) (self : t) : result t :=
match n with
| O => Ok self
| S n => self ← pop self; pop_times n self
end.

Definition unmap_all_child_options (self : t) : result t :=
pop_times (length (stack self)) self.

(** The search of [__getitem__]: the dict on top, then the stack from
  the nearest entry outwards. *)
Fixpoint find (option : string) (dicts : gmap nat dict) (tokens : list nat)
  : result (Datatypes.option (CharmProgram * string * nat)) :=
match tokens with
| [] => Ok None
| tok :: tokens =>
    match dicts !! tok with
    | None => Raise KeyError
    | Some d =>
        match d !! option with
        | Some (program, group_id) => Ok (Some (program, group_id, tok))
        | None => find option dicts tokens
        end
    end
end.

(** [__getitem__]; [program_options] is [self.interpreter.program.options]. *)
Definition getitem (option : string)
  (program_options : gmap string (Datatypes.option string)) (self : t)
  : result (CharmProgram * string * bound * bound * nat) :=
r ← find option (token_to_dict self) (token self :: stack self);
match r with
| Some (program, group_id, tok) =>
    Ok (program, group_id,
        ArgumentGroup.minimum (prog_total program),
        ArgumentGroup.maximum (prog_total program), tok)
| None =>
    d ← denormalize_option option;
    match program_options !! option with
    | Some (Some parent_options) =>
        if String.eqb parent_options "" then
          Raise (AppealUsageError ("unknown option " +:+ d))
        else
          Raise (AppealUsageError
            (d +:+ " can't be used here, it must be used immediately after "
             +:+ replace_char "|" "or" parent_options))
    | _ => Raise (AppealUsageError ("unknown option " +:+ d))
    end
end.

(** [__setitem__] *)
Definition setitem (option : string) (value : CharmProgram * string)
  (self : t) : result t :=
d ← options self;
Ok {| stack := stack self;
      token_to_dict := <[token self := <[option := value]> d]> (token_to_dict self);
      token := token self; next_token := next_token self |}.

End Options.

(** ** [CharmInterpreter] *)

(** The settings of the root [Appeal] object that the interpreter reads
    and writes.  The object is shared by every interpreter of the
    application. *)
Record Appeal := mkAppeal {
  root_force_positional : bool;
  option_space_oparg : bool;
  short_option_equals_oparg : bool;
  short_option_concatenated_oparg : bool;
}.

(** The root object as [Appeal.__init__] leaves it, with the default
    parsing semantics. *)
Definition Appeal_init : Appeal :=
  {| root_force_positional := false; option_space_oparg := true;
     short_option_equals_oparg := true;
     short_option_concatenated_oparg := true |}.

Definition set_root_force_positional (v : bool) (a : Appeal) : Appeal :=
  {| root_force_positional := v;
     option_space_oparg := option_space_oparg a;
     short_option_equals_oparg := short_option_equals_oparg a;
     short_option_concatenated_oparg := short_option_concatenated_oparg a |}.

(** [str(n)] of a minimum or maximum *)
Definition bound_str (b : bound) : string :=
  match b with
  | Fin n => pretty n
  | Inf => "inf"
  end.

Module CharmInterpreter.

(** [CharmProgramIterator]: the program and the [ip] inside it. *)
Record CharmProgramIterator := mkIterator {
it_program : CharmProgram;
it_ip : nat;
}.

(** [CharmProgramIterator.__bool__]; [None] is false too. *)
Definition ip_bool (ip : option CharmProgramIterator) : bool :=
match ip with
| Some it => bool_decide (it_ip it < length (prog_opcodes (it_program it)))%nat
| None => false
end.

(** The registers, which are also what [CharmProgramStackEntry]
  saves and restores. *)
Record registers := mkRegisters {
ip : option CharmProgramIterator;
program : CharmProgram;
converter : Converter.value;
o : Converter.value;
group : option nat;
groups : list nat;
}.

Definition reg_set_ip (v : option CharmProgramIterator) (self : registers) : registers :=
{| ip := v; program := program self; converter := converter self;
   o := o self; group := group self; groups := groups self |}.
Definition reg_set_program (v : CharmProgram) (self : registers) : registers :=
{| ip := ip self; program := v; converter := converter self; o := o self;
   group := group self; groups := groups self |}.
Definition reg_set_converter (v : Converter.value) (self : registers) : registers :=
{| ip := ip self; program := program self; converter := v; o := o self;
   group := group self; groups := groups self |}.
Definition reg_set_o (v : Converter.value) (self : registers) : registers :=
{| ip := ip self; program := program self; converter := converter self;
   o := v; group := group self; groups := groups self |}.
Definition reg_set_group (v : option nat) (self : registers) : registers :=
{| ip := ip self; program := program self; converter := converter self;
   o := o self; group := v; groups := groups self |}.
Definition reg_set_groups (v : list nat) (self : registers) : registers :=
{| ip := ip self; program := program self; converter := converter self;
   o := o self; group := group self; groups := v |}.

(** The interpreter: the call stack and registers of
  [CharmBaseInterpreter], the attributes of [CharmInterpreter], the
  local variables of [__call__] that outlive an iteration
  ([id_to_group], [command_converter], [force_positional] and
  [program], unbound until an option has been looked up), the two
  object stores, and the root [Appeal] object.  The token sequence
  [argi] is passed alongside. *)
Record t := mk {
call_stack : list registers;
regs : registers;
converters : gmap string nat;
options : Options.t;
command_converter_key : option string;
id_to_group : gmap string nat;
command_converter : option nat;
force_positional : bool;
program_local : option CharmProgram;
heap : Converter.store;
group_heap : list ArgumentGroup.t;
appeal : Appeal;
}.

Definition set_call_stack (v : list registers) (self : t) : t :=
{| call_stack := v; regs := regs self; converters := converters self;
   options := options self;
   command_converter_key := command_converter_key self;
   id_to_group := id_to_group self;
   command_converter := command_converter self;
   force_positional := force_positional self;
   program_local := program_local self; heap := heap self;
   group_heap := group_heap self; appeal := appeal self |}.
Definition set_regs (v : registers) (self : t) : t :=
{| call_stack := call_stack self; regs := v;
   converters := converters self; options := options self;
   command_converter_key := command_converter_key self;
   id_to_group := id_to_group self;
   command_converter := command_converter self;
   force_positional := force_positional self;
   program_local := program_local self; heap := heap self;
   group_heap := group_heap self; appeal := appeal self |}.
Definition set_converters (v : gmap string nat) (self : t) : t :=
{| call_stack := call_stack self; regs := regs self; converters := v;
   options := options self;
   command_converter_key := command_converter_key self;
   id_to_group := id_to_group self;
   command_converter := command_converter self;
   force_positional := force_positional self;
   program_local := program_local self; heap := heap self;
   group_heap := group_heap self; appeal := appeal self |}.
Definition set_options (v : Options.t) (self : t) : t :=
{| call_stack := call_stack self; regs := regs self;
   converters := converters self; options := v;
   command_converter_key := command_converter_key self;
   id_to_group := id_to_group self;
   command_converter := command_converter self;
   force_positional := force_positional self;
   program_local := program_local self; heap := heap self;
   group_heap := group_heap self; appeal := appeal self |}.
Definition set_command_converter_key (v : option string) (self : t) : t :=
{| call_stack := call_stack self; regs := regs self;
   converters := converters self; options := options self;
   command_converter_key := v; id_to_group := id_to_group self;
   command_converter := command_converter self;
   force_positional := force_positional self;
   program_local := program_local self; heap := heap self;
   group_heap := group_heap self; appeal := appeal self |}.
Definition set_id_to_group (v : gmap string nat) (self : t) : t :=
{| call_stack := call_stack self; regs := regs self;
   converters := converters self; options := options self;
   command_converter_key := command_converter_key self; id_to_group := v;
   command_converter := command_converter self;
   force_positional := force_positional self;
   program_local := program_local self; heap := heap self;
   group_heap := group_heap self; appeal := appeal self |}.
Definition set_command_converter (v : option nat) (self : t) : t :=
{| call_stack := call_stack self; regs := regs self;
   converters := converters self; options := options self;
   command_converter_key := command_converter_key self;
   id_to_group := id_to_group self; command_converter := v;
   force_positional := force_positional self;
   program_local := program_local self; heap := heap self;
   group_heap := group_heap self; appeal := appeal self |}.
Definition set_force_positional (v : bool) (self : t) : t :=
{| call_stack := call_stack self; regs := regs self;
   converters := converters self; options := options self;
   command_converter_key := command_converter_key self;
   id_to_group := id_to_group self;
   command_converter := command_converter self; force_positional := v;
   program_local := program_local self; heap := heap self;
   group_heap := group_heap self; appeal := appeal self |}.
Definition set_program_local (v : option CharmProgram) (self : t) : t :=
{| call_stack := call_stack self; regs := regs self;
   converters := converters self; options := options self;
   command_converter_key := command_converter_key self;
   id_to_group := id_to_group self;
   command_converter := command_converter self;
   force_positional := force_positional self; program_local := v;
   heap := heap self; group_heap := group_heap self;
   appeal := appeal self |}.
Definition set_heap (v : Converter.store) (self : t) : t :=
{| call_stack := call_stack self; regs := regs self;
   converters := converters self; options := options self;
   command_converter_key := command_converter_key self;
   id_to_group := id_to_group self;
   command_converter := command_converter self;
   force_positional := force_positional self;
   program_local := program_local self; heap := v;
   group_heap := group_heap self; appeal := appeal self |}.
Definition set_group_heap (v : list ArgumentGroup.t) (self : t) : t :=
{| call_stack := call_stack self; regs := regs self;
   converters := converters self; options := options self;
   command_converter_key := command_converter_key self;
   id_to_group := id_to_group self;
   command_converter := command_converter self;
   force_positional := force_positional self;
   program_local := program_local self; heap := heap self;
   group_heap := v; appeal := appeal self |}.
Definition set_appeal (v : Appeal) (self : t) : t :=
{| call_stack := call_stack self; regs := regs self;
   converters := converters self; options := options self;
   command_converter_key := command_converter_key self;
   id_to_group := id_to_group self;
   command_converter := command_converter self;
   force_positional := force_positional self;
   program_local := program_local self; heap := heap self;
   group_heap := group_heap self; appeal := v |}.

Definition with_regs (f : registers → registers) (self : t) : t :=
set_regs (f (regs self)) self.

(** *** [CharmBaseInterpreter] *)

(** [CharmBaseInterpreter.__init__] and [CharmInterpreter.__init__],
  followed by the first lines of [__call__], which read the flag
  [force_positional] off the root object. *)
Definition init (appeal : Appeal) (program : CharmProgram) : result t :=
_ ← assert (negb (bool_decide (prog_opcodes program = [])));
Ok {| call_stack := [];
      regs := {| ip := Some (mkIterator program 0); program := program;
                 converter := Converter.VNone; o := Converter.VNone;
                 group := None; groups := [] |};
      converters := ∅; options := Options.init;
      command_converter_key := None; id_to_group := ∅;
      command_converter := None;
      force_positional := root_force_positional appeal;
      program_local := None; heap := []; group_heap := [];
      appeal := appeal |}.

(** [running] *)
Definition running (self : t) : bool :=
ip_bool (ip (regs self))
|| existsb (λ cse, ip_bool (ip cse)) (call_stack self).

(** [call] *)
Definition call (program : CharmProgram) (self : t) : t :=
set_regs
  {| ip := Some (mkIterator program 0); program := program;
     converter := Converter.VNone; o := Converter.VNone;
     group := None; groups := [] |}
  (set_call_stack (regs self :: call_stack self) self).

(** [finish]: [cpse.restore()], or [self.ip = None] *)
Definition finish (self : t) : t :=
match call_stack self with
| cpse :: stack => set_regs cpse (set_call_stack stack self)
| [] => with_regs (reg_set_ip None) self
end.

(** [abort] *)
Definition abort (self : t) : t :=
set_call_stack [] (with_regs (reg_set_ip None) self).

(** [unwind]: one [finish] for each entry of the call stack, then
  [abort] *)
Definition unwind (self : t) : t :=
abort (foldl (λ m _, finish m) self (call_stack self)).

(** [rewind_one_instruction], with [jump_relative(-1)] *)
Definition rewind_one_instruction (self : t) : result t :=
match ip (regs self) with
| None => Raise StopIteration
| Some it =>
    match it_ip it with
    | O => Raise RuntimeError
    | S n =>
        if bool_decide (n < length (prog_opcodes (it_program it)))%nat
        then Ok (with_regs (reg_set_ip (Some (mkIterator (it_program it) n))) self)
        else Raise RuntimeError
    end
end.

(** [__next__]: fetch the next instruction, leaving finished programs
  on the way; [None] is [StopIteration].  Each round of its loop
  pops a frame of the call stack, here [stack]. *)
Fixpoint next_from (stack : list registers) (self : t)
  : result (option CharmInstruction * t) :=
if negb (ip_bool (ip (regs self))
         || match stack with [] => false | _ => true end)
then Ok (None, self)
else
  match ip (regs self) with
  | None => Raise AttributeError
  | Some it =>
      match prog_opcodes (it_program it) !! it_ip it with
      | Some op =>
          Ok (Some op,
              with_regs (reg_set_ip
                (Some (mkIterator (it_program it) (S (it_ip it))))) self)
      | None =>
          match stack with
          | cpse :: stack =>
              next_from stack (set_regs cpse (set_call_stack stack self))
          | [] => Ok (None, self)
          end
      end
  end.

Definition next (self : t) : result (option CharmInstruction * t) :=
next_from (call_stack self) self.

(** *** The first part of the loop of [__call__]: instructions *)

(** Enough fuel for [unqueue] to climb from any converter of an
  acyclic store. *)
Definition climb (self : t) : nat := S (length (heap self)).

(** [self.ip.jump(address)] *)
Definition jump (address : nat) (self : t) : result t :=
match ip (regs self) with
| Some it =>
    Ok (with_regs (reg_set_ip (Some (mkIterator (it_program it) address))) self)
| None => Raise AttributeError
end.

(** The body of the [for ip, op in self] loop for every instruction
  but [consume_argument]. *)
Definition execute (op : CharmInstruction) (self : t) : result t :=
match op with
| CharmInstructionCreateConverter parameter key is_command =>
    let a := length (heap self) in
    let self := set_heap (heap self ++ [Converter.init parameter is_command]) self in
    let self := set_converters (<[key := a]> (converters self)) self in
    let self := with_regs (reg_set_o (Converter.VConv a)) self in
    if is_command && negb (bool_decide (is_Some (command_converter self)))
    then Ok (set_command_converter_key (Some key)
               (set_command_converter (Some a) self))
    else Ok self
| CharmInstructionLoadConverter key =>
    Ok (with_regs (reg_set_converter
          (from_option Converter.VConv Converter.VNone
             (converters self !! key))) self)
| CharmInstructionLoadO key =>
    Ok (with_regs (reg_set_o
          (from_option Converter.VConv Converter.VNone
             (converters self !! key))) self)
| CharmInstructionMapOption option program _ _ group =>
    opts ← Options.setitem option (program, group) (options self);
    Ok (set_options opts self)
| CharmInstructionAppendToArgs _ discretionary _ =>
    match converter (regs self) with
    | Converter.VConv c =>
        h ← (if discretionary
             then Converter.queue_converter c (o (regs self)) (heap self)
             else Converter.append_converter (climb self) c (o (regs self))
                    (heap self));
        Ok (set_heap h self)
    | _ => Raise AttributeError
    end
| CharmInstructionAddToKwargs name =>
    match converter (regs self) with
    | Converter.VConv c =>
        cv ← Converter.get (heap self) c;
        _ ← (match p_cls (Converter.parameter cv) with
             | SimpleType => Raise AttributeError
             | _ => Ok tt
             end);
        let existing :=
          default Converter.VNone (Converter.kwargs_converters cv !! name) in
        if Converter.truthy existing then
          let is_multi :=
            match existing with
            | Converter.VConv e =>
                match heap self !! e with
                | Some ec =>
                    match p_cls (Converter.parameter ec) with
                    | Multi => true
                    | _ => false
                    end
                | None => false
                end
            | _ => false
            end in
          if bool_decide (existing = o (regs self)) && is_multi
          then Ok self
          else
            match program_local self with
            | None => Raise UnboundLocalError
            | Some program =>
                Raise (AppealUsageError
                  (prog_name program +:+ " specified more than once."))
            end
        else
          h ← Converter.unqueue (climb self) c None (heap self);
          h ← Converter.update c
                (λ cv, Converter.set_kwargs
                   (<[name := o (regs self)]> (Converter.kwargs_converters cv)) cv) h;
          Ok (set_heap h self)
    | _ => Raise AttributeError
    end
| CharmInstructionSetGroup group _ _ =>
    let a := length (group_heap self) in
    let self := set_group_heap (group_heap self ++ [ArgumentGroup.copy group]) self in
    let self := with_regs (λ r, reg_set_groups (groups r ++ [a])
                                  (reg_set_group (Some a) r)) self in
    Ok (set_id_to_group (<[ArgumentGroup.id group := a]> (id_to_group self)) self)
| CharmInstructionFlushMultioption =>
    match o (regs self) with
    | Converter.VConv a =>
        cv ← Converter.get (heap self) a;
        _ ← assert (match p_cls (Converter.parameter cv) with
                    | Multi => true
                    | _ => false
                    end);
        h ← Converter.update a Converter.flush_multi (heap self);
        Ok (set_heap h self)
    | _ => Raise AssertionError
    end
| CharmInstructionJump address => jump address self
| CharmInstructionBranchOnO address =>
    if Converter.truthy (o (regs self)) then jump address self
    else Ok self
| CharmInstructionComment _ => Ok self
| CharmInstructionEnd _ _ => Ok self
| _ =>
    (* the message ends with the [repr] of the instruction, left out *)
    Raise (AppealConfigurationError "unhandled opcode")
end.

(** The [for ip, op in self] loop: run until the program is finished
  ([None]) or a [consume_argument] is reached.  [has_args] is the
  truth value of [argi], all that this part reads of it. *)
Fixpoint phase1 (fuel : nat) (has_args : bool) (self : t)
  : result (t * option CharmInstruction) :=
match fuel with
| O => Timeout
| S fuel =>
    '(r, self) ← next self;
    match r with
    | None => Ok (self, None)
    | Some (CharmInstructionConsumeArgument required is_oparg) =>
        Ok (if has_args then self else abort self,
            Some (CharmInstructionConsumeArgument required is_oparg))
    | Some op => self ← execute op self; phase1 fuel has_args self
    end
end.

(** *** The second part of the loop: command-line arguments *)

(** How the [for a in argi] loop is left: by [return], or by [break]
  or exhaustion, back to the [while] loop. *)
Inductive exit :=
| Return (converter : nat) (self : t) (argi : list string)
| Resume (self : t) (argi : list string).

(** [op and (op.op == opcode.consume_argument) and op.is_oparg] *)
Definition is_oparg (op : option CharmInstruction) : bool :=
match op with
| Some (CharmInstructionConsumeArgument _ is_oparg) => is_oparg
| _ => false
end.

(** [is_positional_argument] *)
Definition is_positional_argument (self : t) (op : option CharmInstruction)
  (a : string) : bool :=
force_positional self
|| negb (startswith "-" a)
|| String.eqb a "-"
|| is_oparg op.

(** [self.converters[self.command_converter_key]] *)
Definition command_converter_of (self : t) : result nat :=
match command_converter_key self with
| None => Raise KeyError
| Some key =>
    match converters self !! key with
    | Some c => Ok c
    | None => Raise KeyError
    end
end.

(** The positional branch, for the argument [a] taken off [argi]. *)
Definition positional (self : t) (op : option CharmInstruction)
  (a : string) (argi : list string) : result exit :=
match op with
| None =>
    c ← command_converter_of self;
    Ok (Return c self (a :: argi))                 (* [argi.push(a)] *)
| Some _ =>
    let self := with_regs (reg_set_o (Converter.VStr a)) self in
    let self :=
      match group (regs self) with
      | Some g =>
          set_group_heap
            (alter (λ ag, ArgumentGroup.set_laden true
                            (ArgumentGroup.set_count (ArgumentGroup.count ag + 1) ag))
               g (group_heap self)) self
      | None => self
      end in
    if is_oparg op then Ok (Resume self argi)
    else
      opts ← Options.unmap_all_child_options (options self);
      Ok (Resume (set_options opts self) argi)
end.

(** The short-option case: isolate the option [a[1]], look it up and
  deal with the remainder [a[2:]].  The result is the looked-up
  entry, the split value and the token sequence. *)
Definition short_option (self : t) (a : string)
  (split_value : option string) (argi : list string)
  : result (string * (CharmProgram * string * bound * bound * nat)
            * option string * list string) :=
match a with
| String _ (String c remainder) =>
    let option := String c EmptyString in
    entry ← Options.getitem option (prog_options (program (regs self)))
              (options self);
    let '(_, _, minimum_arguments, maximum_arguments, _) := entry in
    if String.eqb remainder "" then Ok (option, entry, split_value, argi)
    else if bound_eqb maximum_arguments (Fin 0) then
      Ok (option, entry, split_value, ("-" +:+ remainder) :: argi)
    else if bound_leb (Fin 2) maximum_arguments then
      let number_of_arguments :=
        if bound_eqb minimum_arguments maximum_arguments
        then bound_str maximum_arguments
        else bound_str minimum_arguments +:+ " to "
             +:+ bound_str maximum_arguments in
      Raise (AppealUsageError
        ("-" +:+ option +:+ remainder +:+ " isn't allowed, -" +:+ option
         +:+ " takes " +:+ number_of_arguments
         +:+ " arguments, it must be last"))
    else if short_option_concatenated_oparg (appeal self)
            && bound_eqb minimum_arguments (Fin 0) then
      match split_value with
      | Some v =>
          Raise (AppealUsageError
            ("-" +:+ option +:+ remainder +:+ "=" +:+ v
             +:+ " isn't allowed, -" +:+ option
             +:+ " must be last because it takes an argument"))
      | None => Ok (option, entry, Some remainder, argi)
      end
    else
      _ ← assert (bound_eqb minimum_arguments maximum_arguments
                  && bound_eqb maximum_arguments (Fin 1));
      Raise (AppealUsageError
        ("-" +:+ option +:+ remainder +:+ " isn't allowed, -" +:+ option
         +:+ " must be last because it takes an argument"))
| _ => Raise IndexError
end.

(** The option branch, for an argument [a] that is neither positional
  nor ["--"]. *)
Definition invoke_option (self : t) (op : option CharmInstruction)
  (a : string) (argi : list string) : result exit :=
let double_dash := startswith "--" a in
let try_to_split_value :=
  double_dash || short_option_equals_oparg (appeal self) in
let '(a, split_value) :=
  if try_to_split_value then
    let '(a, equals, _split_value) := partition_eq a in
    (a, if equals : bool then Some _split_value else None)
  else (a, None) in
'(option, entry, split_value, argi) ←
  (if double_dash then
     entry ← Options.getitem a (prog_options (program (regs self)))
               (options self);
     Ok (a, entry, split_value, argi)
   else short_option self a split_value argi);
let '(program, group_id, minimum_arguments, maximum_arguments, token) := entry in
let self := set_program_local (Some program) self in
self ←
  match id_to_group self !! group_id with
  | None => Raise KeyError
  | Some g =>
      Ok (set_group_heap
            (alter (ArgumentGroup.set_laden true) g (group_heap self)) self)
  end;
denormalized_option ← denormalize_option option;
self ← match op with
       | Some _ => rewind_one_instruction self
       | None => Ok self
       end;
opts ← Options.pop_until_token token (options self);
let self := set_options (Options.push opts) self in
argi ←
  match split_value with
  | None => Ok argi
  | Some v =>
      (* the source formats the function [denormalize_option] itself
         into these two messages; its address is left out *)
      if bound_eqb maximum_arguments (Fin 0) then
        Raise (AppealUsageError
          (denormalized_option +:+ "=" +:+ v
           +:+ " isn't allowed, because <function denormalize_option>"
           +:+ " doesn't take an argument"))
      else if negb (bound_eqb maximum_arguments (Fin 1))
              && bound_leb (Fin 2) maximum_arguments then
        Raise (AppealUsageError
          (denormalized_option +:+ "=" +:+ v
           +:+ " isn't allowed, because <function denormalize_option>"
           +:+ " takes multiple arguments"))
      else Ok (v :: argi)
  end;
Ok (Resume (call program self) argi).

(** The [for a in argi] loop.  Only ["--"] goes round it again. *)
Fixpoint phase2 (argi : list string) (op : option CharmInstruction)
  (self : t) : result exit :=
match argi with
| [] => Ok (Resume self [])
| a :: argi =>
    if is_positional_argument self op a then positional self op a argi
    else if negb (option_space_oparg (appeal self)) then
      Raise (AppealConfigurationError
        "oops, currently the only supported value of option_space_oparg is True")
    else if String.eqb a "--" then
      _ ← assert (negb (force_positional self));
      phase2 argi op
        (set_appeal (set_root_force_positional true (appeal self))
           (set_force_positional true self))
    else invoke_option self op a argi
end.

(** The lines after the [while] loop: unwind, check the group,
  return the command's converter. *)
Definition finish_call (self : t) : result (nat * t) :=
let self := unwind self in
match group (regs self) with
| None => Raise AssertionError
| Some g =>
    match group_heap self !! g with
    | None => Raise AttributeError
    | Some ag =>
        if ArgumentGroup.satisfied ag then
          c ← command_converter_of self; Ok (c, self)
        else
          let middle :=
            if bound_eqb (ArgumentGroup.minimum ag) (ArgumentGroup.maximum ag)
            then bound_str (ArgumentGroup.minimum ag) +:+ " argument"
                 +:+ (if bound_eqb (ArgumentGroup.minimum ag) (Fin 1)
                      then "" else "s")
            else "at least " +:+ bound_str (ArgumentGroup.minimum ag)
                 +:+ " arguments but no more than "
                 +:+ bound_str (ArgumentGroup.maximum ag) +:+ " arguments" in
          Raise (AppealUsageError
            (prog_name (program (regs self)) +:+ " requires " +:+ middle
             +:+ " in this argument group."))
    end
end.

(** [__call__]: the [while self.running() or argi] loop and what
  follows it.  The result is the converter returned, the final
  state of the interpreter with its stores and the root object,
  and what is left of [argi]. *)
Fixpoint run (fuel : nat) (self : t) (argi : list string)
  : result (nat * t * list string) :=
match fuel with
| O => Timeout
| S fuel =>
    let has_args := match argi with [] => false | _ => true end in
    if running self || has_args then
      '(self, op) ← phase1 fuel has_args self;
      r ← phase2 argi op self;
      match r with
      | Return c self argi => Ok (c, self, argi)
      | Resume self argi => run fuel self argi
      end
    else
      '(c, self) ← finish_call self;
      Ok (c, self, argi)
end.

(** A whole parse: a new interpreter for [program] on the shared root
  object, then [__call__]. *)
Definition parse (fuel : nat) (appeal : Appeal) (program : CharmProgram)
  (argi : list string) : result (nat * t * list string) :=
self ← init appeal program;
run fuel self argi.

End CharmInterpreter.

(** ** Options derived from parameter names *)

(** [c.lower()] for the characters of ASCII, which is what parameter
    names are made of here. *)
Definition ascii_lower (c : ascii) : ascii :=
  let n := nat_of_ascii c in
  if ((65 <=? n) && (n <=? 90))%nat then ascii_of_nat (n + 32) else c.

Fixpoint lower (s : string) : string :=
  match s with
  | EmptyString => EmptyString
  | String c s' => String (ascii_lower c) (lower s')
  end.

(** [parameter_name_to_short_option] *)
Definition parameter_name_to_short_option (s : string) : result string :=
  _ ← assert (negb (String.eqb s ""));
  match s with
  | String c _ => Ok ("-" +:+ String c EmptyString)        (* s[0] *)
  | EmptyString => Raise IndexError
  end.

(** [parameter_name_to_long_option] *)
Definition parameter_name_to_long_option (s : string) : result string :=
  _ ← assert (negb (String.eqb s ""));
  Ok ("--" +:+ replace_char "_" "-" (lower s)).

(** The list [options] that [default_options] builds before it
    registers its entries. *)
Definition default_options_list (parameter_name : string)
  : result (list string) :=
  short ← parameter_name_to_short_option parameter_name;
  if 1 <? len parameter_name then
    long ← parameter_name_to_long_option parameter_name;
    Ok [short; long]
  else Ok [short].

(** The first loop of [Appeal.option]: every option must be legal, and
    is kept with its normal form.  [isalnum] is [str.isalnum] on one
    character and [repr] is [repr] on strings. *)
Section AppealOption.

Variable isalnum : ascii → bool.
Variable repr : string → string.

Definition legal_option (option : string) : bool :=
  startswith "-" option
  && (((len option =? 2)
       && match option with
          | String _ (String c _) => isalnum c             (* option[1] *)
          | _ => false
          end)
      || ((4 <=? len option) && startswith "--" option)).

Fixpoint normalized_options (options : list string)
  : result (list (string * string)) :=
  match options with
  | [] => Ok []
  | option :: options =>
      if negb (legal_option option) then
        Raise (AppealConfigurationError
          ("Appeal.option: " +:+ repr option +:+ " is not a legal option"))
      else
        normalized ← normalize_option option;
        rest ← normalized_options options;
        Ok ((normalized, option) :: rest)
  end.

Definition Appeal_option_check (options : list string)
  : result (list (string * string)) :=
  match options with
  | [] => Raise (AppealConfigurationError "Appeal.option: no options specified")
  | _ => normalized_options options
  end.

End AppealOption.

(** ** [validate_range] *)

(** The converter that [validate_range] returns, for values of type
    [int] (the default [type] of an [int] start): the [start] and [stop]
    it has settled on and [clamp]. *)
Module ValidateRange.

Record t := mk {
start : Z;
stop : Z;
clamp : bool;
}.

(** [validate_range(start, stop, clamp=clamp)]; without [stop] the
  range runs between [int()], which is 0, and [start]. *)
Definition validate_range (start : Z) (stop : option Z) (clamp : bool) : t :=
match stop with
| Some stop => mk start stop clamp
| None =>
    let stop := start in
    let start := 0 in
    if start >? stop then mk stop start clamp else mk start stop clamp
end.

(** The call of the converter on [value]. *)
Definition call (self : t) (value : Z) : result Z :=
let in_range := (start self <=? value) && (value <=? stop self) in
if negb in_range then
  if negb (clamp self) then
    Raise (AppealUsageError
      ("illegal value " +:+ pretty value +:+ ", should be "
       +:+ pretty (start self) +:+ " <= value < " +:+ pretty (stop self)))
  else if value >=? stop self then Ok (stop self)
  else Ok (start self)
else Ok value.

End ValidateRange.

(** ** [counter] *)

(** The class [Counter] that [counter(max=max, step=step)] returns, for
    an [int] default and step.  [max] is an [int], [math.inf] or
    [-math.inf].  In the methods the name [max] is the variable of
    [counter], not the built-in function: [init] declares it
    [nonlocal] and gives it the value it also stores in [self.max]. *)
Module Counter.

Inductive number :=
| Int (z : Z)
| PosInf
| NegInf.

(** [a < b] and [a + step] on these numbers *)
Definition ltb (a b : number) : bool :=
match a, b with
| Int x, Int y => x <? y
| NegInf, (Int _ | PosInf) => true
| Int _, PosInf => true
| _, _ => false
end.

Definition add (a : number) (step : Z) : number :=
match a with
| Int x => Int (x + step)
| _ => a
end.

Record t := mk {
count : number;
max : number;
step : Z;
}.

(** How a method ends; the two exceptions are those Python raises
  itself: for the name [AssertInternalError], which the module
  never defines, and for a call of a number. *)
Inductive outcome :=
| Done (self : t)
| NameError
| TypeError.

(** [init]; [max_cell] is the argument [max] of [counter], [None]
  when it was not given. *)
Definition init (max_cell : Datatypes.option number) (step : Z)
  (default : Z) : outcome :=
if step =? 0 then NameError
else
  let max := match max_cell with
             | Some m => m
             | None => if 0 <? step then PosInf else NegInf
             end in
  Done {| count := Int default; max := max; step := step |}.

(** The built-in [min(a, b)]: [b] when it is smaller, else [a] *)
Definition min (a b : number) : number :=
if ltb b a then b else a.

(** [option] *)
Definition option (self : t) : outcome :=
if 0 <? step self then
  Done {| count := min (add (count self) (step self)) (max self);
          max := max self; step := step self |}
else TypeError.            (* [callable] is the number [max] *)

(** [option] called [n] times *)
Fixpoint options (n : nat) (self : t) : outcome :=
match n with
| O => Done self
| S n =>
    match option self with
    | Done self => options n self
    | e => e
    end
end.

(** [render] *)
Definition render (self : t) : number := count self.

End Counter.

(** ** Example programs *)

Module Examples.

(** The program of a flag ([f( *, o=False)]): no arguments of its
  own. *)
Definition option_o : CharmProgram :=
mkCharmProgram "base -o" (Some "-o") 2
  [ CharmInstructionSetGroup
      (ArgumentGroup.init (Fin 0) (Fin 0) "base -o ag-1" false) false false;
    CharmInstructionCreateConverter (mkParameter "o" Plain) "c-2.o-1" true;
    CharmInstructionLoadConverter "c-2";
    CharmInstructionAddToKwargs "o";
    CharmInstructionEnd 2 "base -o" ]
  ∅ (ArgumentGroup.init (Fin 0) (Fin 0) "ag-2" false).

(** The program of a keyword-only flag [name] of the converter
  [parent_key]: it creates the flag's converter, runs [extra] (the
  options its own converter maps) and stores the converter in the
  parent's keyword arguments. *)
Definition flag_program (id : nat)
  (program_name option_names name key parent_key group_id total_id : string)
  (extra : list CharmInstruction) (options : gmap string (option string))
  : CharmProgram :=
mkCharmProgram program_name (Some option_names) id
  ([ CharmInstructionSetGroup
       (ArgumentGroup.init (Fin 0) (Fin 0) group_id false) false false;
     CharmInstructionCreateConverter (mkParameter name Plain) key true ]
   ++ extra ++
   [ CharmInstructionLoadConverter parent_key;
     CharmInstructionAddToKwargs name;
     CharmInstructionEnd id program_name ])
  options (ArgumentGroup.init (Fin 0) (Fin 0) total_id false).

(** [cmd(x, y, *, c: color=None)] with [color( *, b=False)]: the option
  [-c] maps a child option [-b]. *)
Definition child_b : CharmProgram :=
flag_program 3 "color -b" "-b" "b" "c-1.c-1.b-1" "c-1.c-1"
  "color -b ag-1" "ag-3" [] ∅.

Definition option_c : CharmProgram :=
flag_program 2 "cmd -c" "-c" "c" "c-1.c-1" "c-1" "cmd -c ag-1" "ag-2"
  [ CharmInstructionMapOption "b" child_b "b" "c-1.c-1" "cmd -c ag-1" ]
  {[ "b" := Some "-c" ]}.

Definition cmd_xy : CharmProgram :=
mkCharmProgram "cmd" None 1
  [ CharmInstructionSetGroup
      (ArgumentGroup.init (Fin 2) (Fin 2) "cmd ag-1" false) false false;
    CharmInstructionCreateConverter (mkParameter "cmd" Plain) "c-1" true;
    CharmInstructionMapOption "c" option_c "c" "c-1" "cmd ag-1";
    CharmInstructionLoadConverter "c-1";
    CharmInstructionConsumeArgument true false;
    CharmInstructionAppendToArgs "x" false (Some "x");
    CharmInstructionConsumeArgument true false;
    CharmInstructionAppendToArgs "y" false (Some "y");
    CharmInstructionEnd 1 "cmd" ]
  {[ "c" := None; "b" := Some "-c" ]}
  (ArgumentGroup.init (Fin 2) (Fin 2) "ag-1" false).

(** [cmd( *, a=False, b=False, c=False)]: three flags. *)
Definition flag (id : nat) (name : string) : CharmProgram :=
flag_program id ("cmd -" +:+ name) ("-" +:+ name) name
  ("c-1." +:+ name +:+ "-1") "c-1" ("cmd -" +:+ name +:+ " ag-1")
  ("ag-" +:+ pretty id) [] ∅.

Definition cmd_abc : CharmProgram :=
mkCharmProgram "cmd" None 1
  [ CharmInstructionSetGroup
      (ArgumentGroup.init (Fin 0) (Fin 0) "cmd ag-1" false) false false;
    CharmInstructionCreateConverter (mkParameter "cmd" Plain) "c-1" true;
    CharmInstructionMapOption "a" (flag 2 "a") "a" "c-1" "cmd ag-1";
    CharmInstructionMapOption "b" (flag 3 "b") "b" "c-1" "cmd ag-1";
    CharmInstructionMapOption "c" (flag 4 "c") "c" "c-1" "cmd ag-1";
    CharmInstructionEnd 1 "cmd" ]
  {[ "a" := None; "b" := None; "c" := None ]}
  (ArgumentGroup.init (Fin 0) (Fin 0) "ag-1" false).

(** [cmd( *, f: fopt=None)] with [fopt(s='')]: the option [-f] takes
  one optional value. *)
Definition option_f : CharmProgram :=
mkCharmProgram "cmd -f" (Some "-f") 2
  [ CharmInstructionSetGroup
      (ArgumentGroup.init (Fin 0) (Fin 0) "cmd -f ag-1" false) false false;
    CharmInstructionCreateConverter (mkParameter "f" Plain) "c-1.f-1" true;
    CharmInstructionLoadConverter "c-1";
    CharmInstructionAddToKwargs "f";
    CharmInstructionSetGroup
      (ArgumentGroup.init (Fin 1) (Fin 1) "cmd -f ag-2" true) true false;
    CharmInstructionLoadConverter "c-1.f-1";
    CharmInstructionConsumeArgument false true;
    CharmInstructionAppendToArgs "s" false (Some "s");
    CharmInstructionEnd 2 "cmd -f" ]
  ∅ (ArgumentGroup.init (Fin 0) (Fin 1) "ag-2" false).

Definition cmd_f : CharmProgram :=
mkCharmProgram "cmd" None 1
  [ CharmInstructionSetGroup
      (ArgumentGroup.init (Fin 0) (Fin 0) "cmd ag-1" false) false false;
    CharmInstructionCreateConverter (mkParameter "cmd" Plain) "c-1" true;
    CharmInstructionMapOption "f" option_f "f" "c-1" "cmd ag-1";
    CharmInstructionEnd 1 "cmd" ]
  {[ "f" := None ]}
  (ArgumentGroup.init (Fin 0) (Fin 0) "ag-1" false).

End Examples.

(* ===================================================================== *)
(** * Part II: theorems                                                  *)
(* ===================================================================== *)

(** The order of Python numbers as a proposition. *)
Definition bound_le (a b : bound) : Prop := bound_leb a b = true.

Section ArgumentGroupFacts.

Import ArgumentGroup.

Lemma ArgumentGroup_copy_eq g : copy g = g.
Proof. by destruct g. Qed.

(** C1.  For every argument group, whatever its minimum, maximum,
  flags and count, [satisfied()] is true exactly when the group is
  optional, untouched ([count = 0]) and not laden, or its count lies
  between its minimum and its maximum. *)
Theorem satisfied_iff (g : ArgumentGroup.t) :
satisfied g = true ↔
  (optional g = true ∧ count g = 0 ∧ laden g = false)
  ∨ (bound_le (minimum g) (Fin (count g))
     ∧ bound_le (Fin (count g)) (maximum g)).
Proof.
unfold satisfied, bound_le.
destruct (optional g), (laden g), (Z.eqb_spec (count g) 0); simpl;
  rewrite ?andb_true_iff; split; intros H;
  try (by left); try (by right);
  destruct H as [(? & ? & ?)|H]; try done.
Qed.

End ArgumentGroupFacts.


Section OptionNames.

Lemma len_nil : len "" = 0.
Proof. reflexivity. Qed.

Lemma len_cons a s : len (String a s) = 1 + len s.
Proof. unfold len. cbn [String.length]. lia. Qed.

Lemma len_nonneg s : 0 ≤ len s.
Proof. unfold len. lia. Qed.

Lemma length_two_inv (s : string) :
len s = 2 → ∃ a b, s = String a (String b EmptyString).
Proof.
destruct s as [|a [|b [|c s]]]; rewrite ?len_cons, ?len_nil;
  try lia; eauto.
pose proof (len_nonneg s). lia.
Qed.

Lemma startswith_dash_inv (s : string) :
startswith "-" s = true → ∃ s', s = String "-" s'.
Proof.
destruct s as [|a s]; cbn [startswith]; [done|].
rewrite andb_true_r. intros <-%Ascii.eqb_eq. eauto.
Qed.

(** The options [normalize_option] accepts. *)
Lemma normalize_option_accepts (s : string) :
(∃ r, normalize_option s = Ok r) ↔
  startswith "-" s = true ∧ len s ≠ 1 ∧ len s ≠ 3
  ∧ (len s = 2 ∨ startswith "--" s = true).
Proof.
unfold normalize_option, assert, mbind, result_bind, bind.
destruct (String.eqb_spec s "") as [->|Hne]; cbn [negb].
{ split; [intros [r Hr]; done | intros (H & _); done]. }
destruct (Z.eqb_spec (len s) 1) as [E1|E1]; cbn [negb].
{ split; [intros [r Hr]; done | intros (_ & H & _); done]. }
destruct (Z.eqb_spec (len s) 3) as [E3|E3]; cbn [negb].
{ split; [intros [r Hr]; done | intros (_ & _ & H & _); done]. }
destruct (startswith "-" s) eqn:Hd.
2:{ split; [intros [r Hr]; done | intros (H & _); done]. }
destruct (Z.eqb_spec (len s) 2) as [E2|E2].
- destruct (length_two_inv _ E2) as (x & y & ->).
  split; [intros _; repeat split; auto | eauto].
- destruct (startswith "--" s) eqn:Hdd.
  + split; [intros _; repeat split; auto | eauto].
  + split; [intros [r Hr]; done | intros (_ & _ & _ & [H|H]); done].
Qed.

(** C9.  Every option string that [normalize_option] accepts is given
  back by [denormalize_option] applied to its normal form. *)
Theorem denormalize_normalize (s r : string) :
normalize_option s = Ok r → denormalize_option r = Ok s.
Proof.
unfold normalize_option, assert, mbind, result_bind, bind.
destruct (String.eqb_spec s "") as [->|Hne]; cbn [negb]; [done|].
destruct (Z.eqb_spec (len s) 1) as [E1|E1]; cbn [negb]; [done|].
destruct (Z.eqb_spec (len s) 3) as [E3|E3]; cbn [negb]; [done|].
destruct (startswith "-" s) eqn:Hd; [|done].
destruct (Z.eqb_spec (len s) 2) as [E2|E2].
- destruct (length_two_inv _ E2) as (x & y & ->).
  apply startswith_dash_inv in Hd as [s' Hs'].
  injection Hs' as -> _. intros [= <-]. reflexivity.
- destruct (startswith "--" s) eqn:Hdd; [|done].
  intros [= <-]. unfold denormalize_option, assert, mbind, result_bind, bind.
  destruct (String.eqb_spec s "") as [->|_]; [done|]. cbn [negb].
  by destruct (Z.eqb_spec (len s) 1).
Qed.

Lemma denormalize_normalize_witness :
normalize_option "-v" = Ok "v" ∧ denormalize_option "v" = Ok "-v".
Proof.
split; [reflexivity | apply (denormalize_normalize "-v" "v"); reflexivity].
Defined.

End OptionNames.

(** Inversion of the monadic bind. *)
Lemma bind_Ok {A B} (m : result A) (k : A → result B) (b : B) :
  m ≫= k = Ok b → ∃ a, m = Ok a ∧ k a = Ok b.
Proof. destruct m; cbn; [eauto | done | done]. Qed.

Lemma assert_Ok (b : bool) u : assert b = Ok u → b = true.
Proof. by destruct b. Qed.

Tactic Notation "inv_bind" hyp(H) "as" simple_intropattern(x) ident(E) :=
  apply bind_Ok in H as (x & E & H).

(** Evaluate a computation that succeeds and name its result. *)
Ltac pose_ok x t :=
  let r := eval vm_compute in t in
  lazymatch r with
  | Ok ?c => pose (x := c)
  end.

Ltac inv_binds H :=
  repeat (let r := fresh "r" in
          let Er := fresh "Er" in
          apply bind_Ok in H as (r & Er & H)).

Section Finalize.

Import CharmCompiler.

(** C2, as the code has it.  Scanning a [consume_argument] adds one to
  the maximum of the whole-program group, adds one to its minimum
  unless the group opened by the latest [set_group] is optional,
  and adds one to the minimum and the maximum of that latest
  group; scanning a [set_group] makes it the active group, and a
  repeating one sets the whole-program maximum to [math.inf], where
  later increments leave it. *)
Theorem finalize_arity :
(∀ (s : scan) (required is_oparg : bool),
   ∃ s', scan_step (CharmInstructionConsumeArgument required is_oparg) s = Ok s'
     ∧ ArgumentGroup.maximum (total s')
       = bound_incr (ArgumentGroup.maximum (total s))
     ∧ ArgumentGroup.minimum (total s')
       = (if optional s then ArgumentGroup.minimum (total s)
          else bound_incr (ArgumentGroup.minimum (total s)))
     ∧ group s' = group s ∧ optional s' = optional s
     ∧ (∀ j g opt rep,
          group s = Some j →
          kept s !! j = Some (CharmInstructionSetGroup g opt rep) →
          ∃ g', kept s' !! j = Some (CharmInstructionSetGroup g' opt rep)
            ∧ ArgumentGroup.minimum g' = bound_incr (ArgumentGroup.minimum g)
            ∧ ArgumentGroup.maximum g' = bound_incr (ArgumentGroup.maximum g)))
∧ (∀ (s : scan) g opt rep,
     ∃ s', scan_step (CharmInstructionSetGroup g opt rep) s = Ok s'
       ∧ group s' = Some (length (kept s))
       ∧ kept s' !! length (kept s) = Some (CharmInstructionSetGroup g opt rep)
       ∧ optional s' = opt
       ∧ ArgumentGroup.minimum (total s') = ArgumentGroup.minimum (total s)
       ∧ ArgumentGroup.maximum (total s')
         = (if rep then Inf else ArgumentGroup.maximum (total s)))
∧ bound_incr Inf = Inf.
Proof.
split; [|split; [|done]].
- intros s required is_oparg. eexists. split; [reflexivity|].
  cbn. repeat split.
  + by destruct (optional s).
  + by destruct (optional s).
  + intros j g opt rep -> Hj.
    exists (ArgumentGroup.set_maximum (bound_incr (ArgumentGroup.maximum g))
              (ArgumentGroup.set_minimum (bound_incr (ArgumentGroup.minimum g)) g)).
    split; [|done].
    rewrite lookup_app_l.
    2:{ rewrite length_alter. by eapply lookup_lt_Some. }
    rewrite list_lookup_alter_eq, Hj. done.
- intros s g opt rep. eexists. split; [reflexivity|].
  cbn. repeat split.
  + rewrite lookup_app_r by done. by rewrite Nat.sub_diag.
  + by destruct rep.
  + by destruct rep.
Qed.

Lemma finalize_arity_witness :
∃ g', kept (keep (CharmInstructionConsumeArgument true false)
              (scan_arity 1 (CharmInstructionConsumeArgument true false)
                 {| kept := [CharmInstructionSetGroup
                               (ArgumentGroup.init (Fin 0) (Fin 0) "g" false)
                               false false];
                    labels := ∅; jump_fixups := [];
                    total := ArgumentGroup.init (Fin 0) (Fin 0) "t" false;
                    group := Some 0%nat; optional := false;
                    converter := None; o := None |})) !! 0%nat
      = Some (CharmInstructionSetGroup g' false false)
    ∧ ArgumentGroup.minimum g' = Fin 1 ∧ ArgumentGroup.maximum g' = Fin 1.
Proof.
destruct (proj1 finalize_arity
  {| kept := [CharmInstructionSetGroup
                (ArgumentGroup.init (Fin 0) (Fin 0) "g" false) false false];
     labels := ∅; jump_fixups := [];
     total := ArgumentGroup.init (Fin 0) (Fin 0) "t" false;
     group := Some 0%nat; optional := false;
     converter := None; o := None |} true false)
  as (s' & Hs' & _ & _ & _ & _ & H).
injection Hs' as <-.
apply (H 0%nat (ArgumentGroup.init (Fin 0) (Fin 0) "g" false) false false);
  reflexivity.
Defined.

(** C2, as the claim states it, fails: a [consume_argument] scanned
  inside an optional group leaves the whole-program minimum where
  it was.  The program is the one compiled for a command with a
  single optional positional parameter. *)
Lemma finalize_optional_consume_counterexample :
∃ p t,
  finalize_opcodes
    [ CharmInstructionSetGroup
        (ArgumentGroup.init (Fin 0) (Fin 0) "f ag-2" true) true false;
      CharmInstructionLoadConverter "c-1";
      CharmInstructionConsumeArgument false false;
      CharmInstructionAppendToArgs "a" false (Some "a");
      CharmInstructionEnd 1 "f" ]
    (ArgumentGroup.init (Fin 0) (Fin 0) "ag-1" false) = Ok (p, t)
  ∧ ArgumentGroup.minimum t = Fin 0
  ∧ ArgumentGroup.minimum t
    ≠ bound_incr (ArgumentGroup.minimum
                    (ArgumentGroup.init (Fin 0) (Fin 0) "ag-1" false))
  ∧ ArgumentGroup.maximum t = Fin 1.
Proof.
do 2 eexists. split; [vm_compute; reflexivity|].
repeat split; [vm_compute; congruence].
Qed.

End Finalize.

Section DuplicateOptions.

Import CharmCompiler.

(** An assembler with nothing nested in it that holds an instruction,
  as [reset_duplicate_options_a] leaves the duplicate buffer. *)
Definition leaf (st : CharmAssembler.store) (a : nat) : Prop :=
∃ l, st !! a
     = Some {| CharmAssembler.contents := []; CharmAssembler.opcodes := l |}
   ∧ l ≠ [].

Lemma truthy_leaf cc a : leaf (asm cc) a → truthy (Some a) cc = Ok true.
Proof.
intros (l & Hl & Hne).
unfold truthy, CharmAssembler.bool, depth.
cbn [CharmAssembler.flatten]. rewrite Hl. cbn. by destruct l.
Qed.

Lemma on_Ok a f cc cc' :
on a f cc = Ok cc' →
∃ x, asm cc !! a = Some x ∧ cc' = set_asm (<[a := f x]> (asm cc)) cc.
Proof. unfold on. destruct (asm cc !! a); [|done]. intros [= <-]. eauto. Qed.

Lemma on_attr_Ok a f cc cc' :
on_attr a f cc = Ok cc' →
∃ a' x, a = Some a' ∧ asm cc !! a' = Some x
        ∧ cc' = set_asm (<[a' := f x]> (asm cc)) cc.
Proof.
destruct a as [a|]; [|done]. cbn. intros (x & ? & ?)%on_Ok. eauto.
Qed.

Lemma leaf_append_instruction (st : CharmAssembler.store) a x i self :
st !! x = Some self →
leaf st a →
leaf (<[x := CharmAssembler._append_instruction i self]> st) a.
Proof.
intros Hx (l & Hl & Hne). unfold leaf.
destruct (decide (x = a)) as [->|Hxa].
- rewrite Hl in Hx. injection Hx as <-.
  exists (l ++ [i]). split; [|by destruct l].
  rewrite list_lookup_insert_eq; [done|by eapply lookup_lt_Some].
- exists l. by rewrite list_lookup_insert_ne.
Qed.

(** What one round of the loop of [compile_options] does when it
  accepts the option. *)
Lemma compile_options_loop_accepts o P par key g cc cc' :
compile_options_loop [o] P par key g cc = Ok cc' →
∃ d x opts dups,
  asm cc !! d = Some x
  ∧ cc' = set_asm
            (<[d := CharmAssembler._append_instruction
                      (CharmInstructionMapOption o P par key g) x]>
               (asm cc))
            (set_options opts dups cc)
  ∧ (((o ∉ ag_options cc) ∧ ag_options_a cc = Some d
      ∧ opts = {[o]} ∪ ag_options cc
      ∧ dups = ag_duplicate_options cc)
     ∨ (o ∈ ag_options cc ∧ (o ∉ ag_duplicate_options cc)
        ∧ ag_duplicate_options_a cc = Some d
        ∧ opts = ag_options cc
        ∧ dups = {[o]} ∪ ag_duplicate_options cc)).
Proof.
cbn [compile_options_loop]. intros H.
inv_bind H as [destination cc1] E.
inv_bind H as cc2 E0. injection H as <-.
apply on_attr_Ok in E0 as (d & y & Hdest & Hd & Hx). subst destination cc2.
case_bool_decide as Ho.
- injection E as Ha <-. exists d, y. do 2 eexists. cbn. split; [done|].
  split; [done|]. left. done.
- inv_bind E as [] Eb.
  + case_bool_decide as Hdup; [by inv_bind E as ? Ed|].
    injection E as Ha <-. exists d, y. do 2 eexists. cbn. split; [done|].
    split; [done|]. right. done.
  + by inv_bind E as ? Ed.
Qed.

(** What [reset_duplicate_options_a] leaves behind. *)
Lemma reset_duplicate_options_a_spec cc cc' :
reset_duplicate_options_a cc = Ok cc' →
(∃ b, body_a cc = Some b ∧ (b < length (asm cc))%nat) →
(∃ a, ag_duplicate_options_a cc' = Some a ∧ leaf (asm cc') a)
∧ ag_duplicate_options cc' = ∅
∧ ag_options cc' = ag_options cc.
Proof.
unfold reset_duplicate_options_a. intros H (b & Hb & Hlt).
inv_bind H as [dups cc1] E.
assert (dups = ∅ ∧ ag_options cc1 = ag_options cc
        ∧ body_a cc1 = body_a cc
        ∧ length (asm cc1) = length (asm cc)) as (-> & Ho & Hb1 & Hlen).
{ case_bool_decide as Hd; [|by injection E as <- <-].
  inv_bind E as [] Eb.
  - inv_bind E as cc2 E1. injection E as <- <-.
    apply on_attr_Ok in E1 as (a' & y & _ & _ & ->). cbn.
    by rewrite length_insert.
  - by injection E as <- <-. }
unfold new_assembler in H. cbn [fst snd] in H.
inv_bind H as cc2 E0. inv_bind H as cc3 E1. injection H as <-. cbn.
apply on_Ok in E0 as (x1 & Hx1 & ->).
apply on_attr_Ok in E1 as (b' & x2 & Hb' & Hx2 & ->).
cbn in *. rewrite Hb1, Hb in Hb'. injection Hb' as <-.
rewrite lookup_app_r in Hx1 by done. rewrite Nat.sub_diag in Hx1.
injection Hx1 as <-.
split; [|by split]. eexists. split; [reflexivity|].
eexists. split; [|shelve].
rewrite list_lookup_insert_ne by lia.
rewrite list_lookup_insert_eq; [reflexivity|]. rewrite length_app. cbn. lia.
Unshelve. done.
Qed.

(** The three instructions before the reset keep the attributes. *)
Lemma compile_positional_str_spec ck pn req us cc cc' :
compile_positional_str ck pn req us cc = Ok cc' →
(∃ a, ag_duplicate_options_a cc' = Some a ∧ leaf (asm cc') a)
∧ ag_duplicate_options cc' = ∅
∧ ag_options cc' = ag_options cc.
Proof.
unfold compile_positional_str. intros H.
inv_bind H as c1 E. inv_bind H as c2 E0. inv_bind H as c3 E1.
apply on_attr_Ok in E as (b & x1 & Hb & Hx1 & ->).
apply on_attr_Ok in E0 as (b2 & x2 & Hb2 & Hx2 & ->).
apply on_attr_Ok in E1 as (b3 & x3 & Hb3 & Hx3 & ->).
apply reset_duplicate_options_a_spec in H as (? & ? & ?); [done|].
cbn in *. exists b. split; [done|].
rewrite !length_insert. by eapply lookup_lt_Some.
Qed.




End DuplicateOptions.

Section Queueing.

Import Converter.

(** One converter after a step of unqueueing: its [queued] pointer is
  kept or dropped, and its queue has lost entries at most. *)
Definition drops (c c' : t) : Prop :=
(queued c' = queued c ∨ queued c' = None)
∧ ∀ x, x ∈ args_queue c' → x ∈ args_queue c.

(** The same, for every converter of a store. *)
Definition below (h h' : store) : Prop :=
length h' = length h
∧ ∀ b cb', h' !! b = Some cb' → ∃ cb, h !! b = Some cb ∧ drops cb cb'.

Definition args_same (c c' : t) : Prop :=
args_queue c' = args_queue c ∧ args_converters c' = args_converters c.

(** The converters in [S] keep their argument lists. *)
Definition frame (S : nat → Prop) (h h' : store) : Prop :=
∀ b cb, S b → h !! b = Some cb →
  ∃ cb', h' !! b = Some cb' ∧ args_same cb cb'.

Lemma drops_refl c : drops c c.
Proof. split; auto. Qed.

Lemma drops_trans c1 c2 c3 : drops c1 c2 → drops c2 c3 → drops c1 c3.
Proof.
intros [Hq1 Hs1] [Hq2 Hs2]. split; [|by auto].
destruct Hq2 as [-> | ->]; auto.
Qed.

Lemma below_refl h : below h h.
Proof. split; [done|]. intros b cb Hb. exists cb. auto using drops_refl. Qed.

Lemma below_trans h1 h2 h3 : below h1 h2 → below h2 h3 → below h1 h3.
Proof.
intros [L1 H1] [L2 H2]. split; [congruence|].
intros b c3 Hb. destruct (H2 b c3 Hb) as (c2 & Hc2 & D2).
destruct (H1 b c2 Hc2) as (c1 & Hc1 & D1).
exists c1. eauto using drops_trans.
Qed.

Lemma below_insert (h : store) a c c' :
h !! a = Some c → drops c c' → below h (<[a := c']> h).
Proof.
intros Ha D. split; [apply length_insert|].
intros b cb' Hb. destruct (decide (a = b)) as [<-|Hne].
- rewrite list_lookup_insert_eq in Hb by (by eapply lookup_lt_Some).
  injection Hb as <-. eauto.
- rewrite list_lookup_insert_ne in Hb by done.
  eauto using drops_refl.
Qed.

Lemma frame_refl S h : frame S h h.
Proof. intros b cb _ Hb. exists cb. by split. Qed.

Lemma frame_trans (S : nat → Prop) h1 h2 h3 :
frame S h1 h2 → frame S h2 h3 → frame S h1 h3.
Proof.
intros F1 F2 b c1 Hs Hb.
destruct (F1 b c1 Hs Hb) as (c2 & Hc2 & [E1 E1']).
destruct (F2 b c2 Hs Hc2) as (c3 & Hc3 & [E2 E2']).
exists c3. split; [done|]. split; congruence.
Qed.

Lemma frame_weaken (S S' : nat → Prop) h h' :
(∀ b, S' b → S b) → frame S h h' → frame S' h h'.
Proof. intros HS F b cb Hb. apply F. auto. Qed.

Lemma frame_insert (S : nat → Prop) (h : store) a c c' :
h !! a = Some c → (S a → args_same c c') → frame S h (<[a := c']> h).
Proof.
intros Ha Hs b cb Hb Hl. destruct (decide (a = b)) as [<-|Hne].
- rewrite list_lookup_insert_eq by (by eapply lookup_lt_Some).
  rewrite Ha in Hl. injection Hl as <-. eauto.
- rewrite list_lookup_insert_ne by done. exists cb. by split.
Qed.

Lemma update_Ok a f (h h' : store) :
update a f h = Ok h' → ∃ c, h !! a = Some c ∧ h' = <[a := f c]> h.
Proof. unfold update. destruct (h !! a); [|done]. intros [= <-]. eauto. Qed.

Lemma update_is_Ok a f (h : store) c :
h !! a = Some c → update a f h = Ok (<[a := f c]> h).
Proof. unfold update. by intros ->. Qed.

Lemma get_is_Ok (h : store) a c : h !! a = Some c → get h a = Ok c.
Proof. unfold get. by intros ->. Qed.

Lemma below_is_Some h h' b : below h h' → is_Some (h !! b) → is_Some (h' !! b).
Proof.
intros [L _] Hb. apply lookup_lt_is_Some. rewrite L.
by apply lookup_lt_is_Some.
Qed.

(** The loop of [unqueue] moves the entries up to and including
  [converter], in order, and touches the argument lists of no
  other converter. *)
Lemma flush_spec self conv q1 : ∀ q2 (h : store) cs,
h !! self = Some cs →
args_queue cs = q1 ++ conv :: q2 →
conv ∉ q1 →
(∀ child, child ∈ q1 ++ [conv] → is_Some (h !! child)) →
∃ h' cs',
  flush self conv (q1 ++ conv :: q2) h = Ok h'
  ∧ below h h'
  ∧ frame (λ b, b ≠ self) h h'
  ∧ h' !! self = Some cs'
  ∧ args_queue cs' = q2
  ∧ args_converters cs'
    = args_converters cs ++ (VConv <$> (q1 ++ [conv])).
Proof.
induction q1 as [|c q1 IH]; intros q2 h cs Hself Hq Hnin Hex.
- cbn [app flush].
  rewrite (update_is_Ok _ _ _ _ Hself). cbn.
  set (cs1 := set_args q2 (args_converters cs ++ [VConv conv]) cs).
  set (h1 := <[self := cs1]> h).
  assert (h1 !! self = Some cs1) as Hself1
    by (apply list_lookup_insert_eq; by eapply lookup_lt_Some).
  assert (below h h1) as B1.
  { apply (below_insert h self cs cs1 Hself). split; [by left|].
    cbn. intros x Hx. rewrite Hq. set_solver. }
  destruct (below_is_Some h h1 conv B1) as [cc Hcc]; [apply Hex; set_solver|].
  rewrite (update_is_Ok _ _ _ _ Hcc). cbn.
  rewrite bool_decide_eq_true_2 by done.
  set (h2 := <[conv := set_queued None cc]> h1).
  assert (∃ cs', h2 !! self = Some cs' ∧ args_queue cs' = q2
          ∧ args_converters cs' = args_converters cs ++ [VConv conv])
    as (cs' & Hcs' & Hq' & Ha').
  { destruct (decide (conv = self)) as [->|Hne].
    - exists (set_queued None cc). split.
      + apply list_lookup_insert_eq. by eapply lookup_lt_Some.
      + rewrite Hself1 in Hcc. by injection Hcc as <-.
    - exists cs1. split; [|done]. unfold h2.
      by rewrite list_lookup_insert_ne. }
  exists h2, cs'. split; [done|]. split; [|split; [|done]].
  + apply (below_trans _ h1); [done|].
    apply (below_insert h1 conv cc _ Hcc). split; [by right|done].
  + apply (frame_trans _ _ h1).
    * apply (frame_insert _ h self cs cs1 Hself). done.
    * apply (frame_insert _ h1 conv cc _ Hcc). intros _. by split.
- assert (c ≠ conv) as Hc by set_solver.
  assert (conv ∉ q1) as Hnin' by set_solver.
  change ((c :: q1) ++ conv :: q2) with (c :: (q1 ++ conv :: q2)).
  cbn [flush].
  rewrite (update_is_Ok _ _ _ _ Hself). cbn.
  set (cs1 := set_args (q1 ++ conv :: q2)
                (args_converters cs ++ [VConv c]) cs).
  set (h1 := <[self := cs1]> h).
  assert (h1 !! self = Some cs1) as Hself1
    by (apply list_lookup_insert_eq; by eapply lookup_lt_Some).
  assert (below h h1) as B1.
  { apply (below_insert h self cs cs1 Hself). split; [by left|].
    cbn. intros x Hx. rewrite Hq. set_solver. }
  destruct (below_is_Some h h1 c B1) as [cc Hcc]; [apply Hex; set_solver|].
  rewrite (update_is_Ok _ _ _ _ Hcc). cbn.
  rewrite bool_decide_eq_false_2 by done.
  set (h2 := <[c := set_queued None cc]> h1).
  assert (below h1 h2) as B2
    by (apply (below_insert h1 c cc _ Hcc); split; [by right|done]).
  assert (∃ cs2, h2 !! self = Some cs2
          ∧ args_queue cs2 = q1 ++ conv :: q2
          ∧ args_converters cs2 = args_converters cs ++ [VConv c])
    as (cs2 & Hcs2 & Hq2 & Ha2).
  { destruct (decide (c = self)) as [->|Hne].
    - exists (set_queued None cc). split.
      + apply list_lookup_insert_eq. by eapply lookup_lt_Some.
      + rewrite Hself1 in Hcc. by injection Hcc as <-.
    - exists cs1. split; [|done]. unfold h2.
      by rewrite list_lookup_insert_ne. }
  destruct (IH q2 h2 cs2 Hcs2 Hq2 Hnin') as (h' & cs' & Hf & B & F & Hs' & Hq' & Ha').
  { intros child Hch. apply (below_is_Some h1 h2 _ B2).
    apply (below_is_Some h h1 _ B1). apply Hex. set_solver. }
  exists h', cs'. split; [done|]. split; [|split; [|split; [done|split; [done|]]]].
  + eauto using below_trans.
  + apply (frame_trans _ _ h1);
      [apply (frame_insert _ h self cs cs1 Hself); done|].
    apply (frame_trans _ _ h2); [|done].
    apply (frame_insert _ h1 c cc _ Hcc). intros _. by split.
  + rewrite Ha', Ha2. rewrite <- app_assoc. done.
Qed.


Lemma first_split_unique {A} (x : A) (q1 q2 q1' q2' : list A) :
q1 ++ x :: q2 = q1' ++ x :: q2' → x ∉ q1 → x ∉ q1' → q1 = q1' ∧ q2 = q2'.
Proof.
revert q1'. induction q1 as [|a q1 IH]; intros [|a' q1'] E H H'; cbn in E.
- by injection E as <-.
- injection E as <- _. set_solver.
- injection E as -> _. set_solver.
- injection E as <- E.
  destruct (IH q1' E) as [-> ->]; [set_solver..|done].
Qed.

(** The converters form a forest: a [queued] pointer leads to an
  existing converter of smaller rank, and queues hold existing
  converters. *)
Variable rank : nat → nat.

Definition tree (h : store) : Prop :=
∀ a c p, h !! a = Some c → queued c = Some p →
  is_Some (h !! p) ∧ (rank p < rank a)%nat.

Definition closed (h : store) : Prop :=
∀ a c child, h !! a = Some c → child ∈ args_queue c → is_Some (h !! child).

Lemma tree_below h h' : below h h' → tree h → tree h'.
Proof.
intros B T a c' p Ha Hq.
destruct (proj2 B a c' Ha) as (c & Hc & [[E|E] _]); [|congruence].
rewrite E in Hq. destruct (T a c p Hc Hq) as [Hp Hr].
split; [|done]. by apply (below_is_Some h h').
Qed.

Lemma closed_below h h' : below h h' → closed h → closed h'.
Proof.
intros B C a c' child Ha Hin.
destruct (proj2 B a c' Ha) as (c & Hc & [_ Hsub]).
apply (below_is_Some h h'); [done|]. eapply C; eauto.
Qed.

(** [unqueue] terminates on a forest, drops [queued] pointers only,
  leaves the argument lists of every converter that is not an
  ancestor alone, and moves the entries of its own queue up to and
  including [converter], in order. *)
Lemma unqueue_spec : ∀ fuel self conv (h : store) cs,
tree h → closed h → h !! self = Some cs → (rank self < fuel)%nat →
∃ h' cs',
  unqueue fuel self conv h = Ok h'
  ∧ below h h'
  ∧ frame (λ b, b ≠ self ∧ (rank self ≤ rank b)%nat) h h'
  ∧ h' !! self = Some cs'
  ∧ match conv with
    | Some c =>
        ∀ q1 q2, args_queue cs = q1 ++ c :: q2 → c ∉ q1 →
          args_queue cs' = q2
          ∧ args_converters cs'
            = args_converters cs ++ (VConv <$> (q1 ++ [c]))
    | None => args_same cs cs'
    end.
Proof.
induction fuel as [|fuel IH]; intros self conv h cs T C Hself Hr; [lia|].
cbn [unqueue]. rewrite (get_is_Ok _ _ _ Hself). cbn.
assert (∃ h2 cs2,
          match queued cs with
          | Some parent =>
              unqueue fuel parent (Some self) h
              ≫= λ h, update self (set_queued None) h
          | None => Ok h
          end = Ok h2
          ∧ below h h2
          ∧ frame (λ b, b ≠ self ∧ (rank self ≤ rank b)%nat) h h2
          ∧ h2 !! self = Some cs2 ∧ args_same cs cs2)
  as (h2 & cs2 & -> & B2 & F2 & Hself2 & Hsame).
{ destruct (queued cs) as [p|] eqn:Hq.
  - destruct (T self cs p Hself Hq) as [[cp Hp] Hlt].
    destruct (IH p (Some self) h cp T C Hp ltac:(lia))
      as (h1 & cp1 & -> & B1 & F1 & _ & _).
    destruct (F1 self cs) as (cs1 & Hself1 & Hs1);
    [split; [intros ->; lia | lia] | done |].
    cbn. rewrite (update_is_Ok _ _ _ _ Hself1).
    exists (<[self := set_queued None cs1]> h1), (set_queued None cs1).
    split; [done|]. split; [|split; [|split]].
    + apply (below_trans _ h1); [done|].
      apply (below_insert h1 self cs1 _ Hself1). split; [by right|done].
    + apply (frame_trans _ _ h1).
      * eapply frame_weaken; [|exact F1]. cbn. intros b [Hb1 Hb2].
    split; [intros ->; lia | lia].
      * apply (frame_insert _ h1 self cs1 _ Hself1). intros _. by split.
    + apply list_lookup_insert_eq. by eapply lookup_lt_Some.
    + exact Hs1.
  - exists h, cs. split; [done|].
    split; [apply below_refl|]. split; [apply frame_refl|]. by split. }
cbn. destruct conv as [c|]; [|by exists h2, cs2].
rewrite (get_is_Ok _ _ _ Hself2). cbn.
destruct Hsame as [Hq2 Ha2].
case_bool_decide as Hin.
- apply list_elem_of_split_l in Hin as (q1 & q2 & Hsplit & Hnin).
  destruct (flush_spec self c q1 q2 h2 cs2 Hself2 Hsplit Hnin)
    as (h3 & cs3 & Hf & B3 & F3 & Hself3 & Hq3 & Ha3).
  { intros child Hch. eapply (closed_below h h2 B2 C); [exact Hself2|].
    rewrite Hsplit. set_solver. }
  rewrite Hsplit, Hf. exists h3, cs3.
  split; [done|]. split; [by eapply below_trans|].
  split; [|split; [done|]].
  + apply (frame_trans _ _ h2); [done|].
    eapply frame_weaken; [|exact F3]. by intros b [? _].
  + intros q1' q2' Hsplit' Hnin'.
    rewrite <- Hq2, Hsplit in Hsplit'.
    destruct (first_split_unique _ _ _ _ _ Hsplit' Hnin Hnin') as [<- <-].
    by rewrite Ha3, Ha2.
- exists h2, cs2. split; [done|]. split; [done|]. split; [done|].
  split; [done|]. intros q1 q2 Hsplit _. exfalso. apply Hin.
  rewrite Hq2, Hsplit. set_solver.
Qed.


(** [queue_converter] on a forest. *)
Lemma queue_converter_spec (h : store) p x cp cx :
tree h → closed h →
h !! p = Some cp → h !! x = Some cx → queued cx = None →
(rank p < rank x)%nat →
∃ h1,
  queue_converter p (VConv x) h = Ok h1
  ∧ tree h1 ∧ closed h1
  ∧ h1 !! p = Some (set_args (args_queue cp ++ [x]) (args_converters cp) cp)
  ∧ h1 !! x = Some (set_queued (Some p) cx)
  ∧ ∀ b, b ≠ p → b ≠ x → h1 !! b = h !! b.
Proof.
intros T C Hp Hx Hq Hr.
assert (x ≠ p) as Hxp by (intros ->; lia).
unfold queue_converter, queued_of.
rewrite (get_is_Ok _ _ _ Hx). cbn. rewrite Hq. cbn.
rewrite (update_is_Ok _ _ _ _ Hx). cbn.
set (hx := <[x := set_queued (Some p) cx]> h).
assert (hx !! p = Some cp) as Hp' by (unfold hx; by rewrite list_lookup_insert_ne).
rewrite (update_is_Ok _ _ _ _ Hp').
set (cp1 := set_args (args_queue cp ++ [x]) (args_converters cp) cp).
set (h1 := <[p := cp1]> hx).
assert (length h1 = length h) as Hlen
  by (unfold h1, hx; by rewrite !length_insert).
assert (h1 !! p = Some cp1) as Hp1
  by (apply list_lookup_insert_eq; by eapply lookup_lt_Some).
assert (h1 !! x = Some (set_queued (Some p) cx)) as Hx1.
{ unfold h1. rewrite list_lookup_insert_ne by done.
  apply list_lookup_insert_eq. by eapply lookup_lt_Some. }
assert (∀ b, b ≠ p → b ≠ x → h1 !! b = h !! b) as Hother.
{ intros b Hbp Hbx. unfold h1, hx.
  by rewrite !list_lookup_insert_ne. }
assert (∀ b, is_Some (h !! b) → is_Some (h1 !! b)) as Hsome.
{ intros b Hb. apply lookup_lt_is_Some. rewrite Hlen.
  by apply lookup_lt_is_Some. }
exists h1. split; [done|]. split; [|split; [|by repeat split]].
- intros a c par Ha Hqa.
  destruct (decide (a = p)) as [->|Hap].
  { rewrite Hp1 in Ha. injection Ha as <-. cbn in Hqa.
    destruct (T p cp par Hp Hqa). auto. }
  destruct (decide (a = x)) as [->|Hax].
  { rewrite Hx1 in Ha. injection Ha as <-. cbn in Hqa.
    injection Hqa as <-. split; [eauto|done]. }
  rewrite Hother in Ha by done.
  destruct (T a c par Ha Hqa). auto.
- intros a c child Ha Hin.
  destruct (decide (a = p)) as [->|Hap].
  { rewrite Hp1 in Ha. injection Ha as <-. cbn in Hin.
    apply elem_of_app in Hin as [Hin|Hin].
    - apply Hsome. exact (C p cp child Hp Hin).
    - apply list_elem_of_singleton in Hin as ->. eauto. }
  destruct (decide (a = x)) as [->|Hax].
  { rewrite Hx1 in Ha. injection Ha as <-. cbn in Hin.
    apply Hsome. exact (C x cx child Hx Hin). }
  rewrite Hother in Ha by done. apply Hsome. exact (C a c child Ha Hin).
Qed.

(** C6.  Queue [x] and then [y] on the parent [p]; when [y] is promoted
  ([y.unqueue()]), the parent moves its whole pending queue to its
  argument list in queueing order: what was pending before, then [x],
  then [y].  So [x] is flushed before [y]. *)
Theorem queued_siblings_flush_in_order (h : store) (p x y : nat)
  (cp cx cy : t) (fuel : nat) :
tree h → closed h →
h !! p = Some cp → h !! x = Some cx → h !! y = Some cy →
queued cx = None → queued cy = None →
x ≠ y → x ∉ args_queue cp → y ∉ args_queue cp →
(rank p < rank x)%nat → (rank p < rank y)%nat → (rank y < fuel)%nat →
∃ h1 h2 h3 cp3,
  queue_converter p (VConv x) h = Ok h1
  ∧ queue_converter p (VConv y) h1 = Ok h2
  ∧ unqueue fuel y None h2 = Ok h3
  ∧ h3 !! p = Some cp3
  ∧ args_queue cp3 = []
  ∧ args_converters cp3
    = args_converters cp ++ (VConv <$> args_queue cp) ++ [VConv x; VConv y].
Proof.
intros T C Hp Hx Hy Hqx Hqy Hxy Hxin Hyin Hrx Hry Hfuel.
assert (y ≠ p) as Hyp by (intros ->; lia).
destruct (queue_converter_spec h p x cp cx T C Hp Hx Hqx Hrx)
  as (h1 & Hh1 & T1 & C1 & Hp1 & Hx1 & Ho1).
assert (h1 !! y = Some cy) as Hy1 by (rewrite Ho1; done).
destruct (queue_converter_spec h1 p y _ cy T1 C1 Hp1 Hy1 Hqy Hry)
  as (h2 & Hh2 & T2 & C2 & Hp2 & Hy2 & Ho2).
cbn in Hp2.
destruct fuel as [|fuel]; [lia|].
destruct (unqueue_spec fuel p (Some y) h2 _ T2 C2 Hp2 ltac:(lia))
  as (h3 & cp3 & Hu & B3 & F3 & Hp3 & Hargs).
destruct (Hargs (args_queue cp ++ [x]) []) as [Hq3 Ha3]; [done|set_solver|].
cbn in Ha3.
destruct (below_is_Some h2 h3 y B3) as [cy3 Hy3]; [eauto|].
exists h1, h2, (<[y := set_queued None cy3]> h3), cp3.
split; [done|]. split; [done|]. split; [|split; [|split; [done|]]].
- cbn [unqueue]. rewrite (get_is_Ok _ _ _ Hy2). cbn.
  rewrite Hu. cbn. by rewrite (update_is_Ok _ _ _ _ Hy3).
- by rewrite list_lookup_insert_ne.
- rewrite Ha3, !fmap_app, <- ?app_assoc. done.
Qed.

End Queueing.

Lemma queued_siblings_flush_in_order_witness :
  let c := Converter.init (mkParameter "f" Plain) false in
  ∃ h1 h2 h3 cp3,
    Converter.queue_converter 0 (Converter.VConv 1) [c; c; c] = Ok h1
    ∧ Converter.queue_converter 0 (Converter.VConv 2) h1 = Ok h2
    ∧ Converter.unqueue 3 2 None h2 = Ok h3
    ∧ h3 !! 0%nat = Some cp3
    ∧ Converter.args_queue cp3 = []
    ∧ Converter.args_converters cp3
      = Converter.args_converters c ++ (Converter.VConv <$> Converter.args_queue c)
        ++ [Converter.VConv 1; Converter.VConv 2].
Proof.
  intros c.
  apply (queued_siblings_flush_in_order (λ a, a) [c; c; c] 0 1 2 c c c 3).
  - intros a ca p Ha Hq. destruct a as [|[|[|a]]]; cbn in Ha; [..|done];
      injection Ha as <-; done.
  - intros a ca child Ha Hin. destruct a as [|[|[|a]]]; cbn in Ha; [..|done];
      injection Ha as <-; cbn in Hin; set_solver.
  - reflexivity.
  - reflexivity.
  - reflexivity.
  - reflexivity.
  - reflexivity.
  - lia.
  - cbn. set_solver.
  - cbn. set_solver.
  - lia.
  - lia.
  - lia.
Defined.

(* ===================================================================== *)
(** * Part III: further properties of the interpreter                    *)
(* ===================================================================== *)

Section InterpreterFlags.

Import CharmInterpreter.

(** The two copies of the flag: the local variable [force_positional]
  of [__call__] and the root object with its attribute. *)
Definition flags (self : t) : bool * Appeal :=
(force_positional self, appeal self).

(** What [__call__] may do to them: nothing, or set both copies. *)
Definition flags_step (self self' : t) : Prop :=
flags self' = flags self
∨ flags self' = (true, set_root_force_positional true (appeal self)).

Lemma flags_step_refl self : flags_step self self.
Proof. by left. Qed.

Lemma flags_step_eq self self' : flags self' = flags self → flags_step self self'.
Proof. by left. Qed.

Lemma set_root_force_positional_idem a :
  set_root_force_positional true (set_root_force_positional true a)
  = set_root_force_positional true a.
Proof. done. Qed.

Lemma flags_step_trans s1 s2 s3 :
  flags_step s1 s2 → flags_step s2 s3 → flags_step s1 s3.
Proof.
unfold flags_step, flags.
intros [H1|H1] [H2|H2]; injection H1 as H1 H1'; injection H2 as H2 H2';
  rewrite H2, H2', ?H1, ?H1'; auto.
Qed.

Lemma next_from_flags stack : ∀ self r self',
  next_from stack self = Ok (r, self') → flags self' = flags self.
Proof.
induction stack as [|cpse stack IH]; intros self r self' H; cbn in H.
- repeat case_match; simplify_eq; done.
- repeat case_match; simplify_eq; try done.
  apply IH in H. by rewrite H.
Qed.

Lemma execute_flags op self self' :
  execute op self = Ok self' → flags self' = flags self.
Proof.
intros H. destruct op; cbn in H; unfold jump in H;
  repeat (first [ progress simplify_eq
                | progress inv_binds H
                | case_match ]);
  try done.
Qed.

Lemma abort_flags self : flags (abort self) = flags self.
Proof. done. Qed.

Lemma phase1_flags fuel has_args : ∀ self self' op,
  phase1 fuel has_args self = Ok (self', op) → flags self' = flags self.
Proof.
induction fuel as [|fuel IH]; intros self self' op H; [done|].
cbn [phase1] in H. inv_bind H as [r self1] E.
apply next_from_flags in E.
destruct r as [i|]; [|injection H as <- <-; exact E].
destruct i; try (inv_bind H as self2 E2; apply execute_flags in E2;
                 apply IH in H; congruence).
injection H as <- <-. by destruct has_args.
Qed.

Definition exit_state (r : exit) : t :=
match r with
| Return _ self _ | Resume self _ => self
end.

Lemma positional_flags self op a argi r :
  positional self op a argi = Ok r → flags (exit_state r) = flags self.
Proof.
unfold positional. intros H.
repeat (first [ progress simplify_eq | progress inv_binds H | case_match ]);
  done.
Qed.

Lemma invoke_option_flags self op a argi r :
  invoke_option self op a argi = Ok r → flags (exit_state r) = flags self.
Proof.
unfold invoke_option, rewind_one_instruction. intros H.
repeat (first [ progress simplify_eq | progress inv_binds H | case_match ]);
  done.
Qed.

Lemma phase2_flags argi : ∀ op self r,
  phase2 argi op self = Ok r → flags_step self (exit_state r).
Proof.
induction argi as [|a argi IH]; intros op self r H; cbn [phase2] in H.
- simplify_eq. apply flags_step_refl.
- destruct (is_positional_argument self op a).
  { apply positional_flags in H. by left. }
  destruct (option_space_oparg (appeal self)); [|done]. cbn in H.
  destruct (String.eqb a "--").
  + inv_bind H as u E. apply IH in H.
    eapply flags_step_trans; [|exact H]. by right.
  + apply invoke_option_flags in H. by left.
Qed.

Lemma unwind_flags self : flags (unwind self) = flags self.
Proof.
unfold unwind. rewrite abort_flags.
generalize (call_stack self). intros l. revert self.
induction l as [|x l IH]; intros self; [done|].
cbn. rewrite IH. unfold finish. by destruct (call_stack self).
Qed.

Lemma finish_call_flags self c self' :
  finish_call self = Ok (c, self') → flags self' = flags self.
Proof.
unfold finish_call. rewrite <- (unwind_flags self).
generalize (unwind self). intros u H.
repeat (first [ progress simplify_eq | progress inv_binds H | case_match ]);
  done.
Qed.

Lemma run_flags fuel : ∀ self argi c self' argi',
  run fuel self argi = Ok (c, self', argi') → flags_step self self'.
Proof.
induction fuel as [|fuel IH]; intros self argi c self' argi' H; [done|].
cbn [run] in H.
destruct (running self || match argi with [] => false | _ => true end).
- inv_bind H as [self1 op] E. apply phase1_flags in E.
  inv_bind H as r E2. apply phase2_flags in E2.
  apply flags_step_eq in E.
  destruct r as [c1 self2 argi2|self2 argi2].
  + simplify_eq. eapply flags_step_trans; eauto.
  + apply IH in H. eauto using flags_step_trans.
- inv_bind H as [c1 self1] E. apply finish_call_flags in E.
  injection H as <- <- <-. by left.
Qed.

(** X1.  The only thing a completed [__call__] does to the root
  [Appeal] object is to set its [force_positional] attribute: the
  parsing semantics are never written, the attribute is never
  cleared, and the local copy of the flag is set together with
  it. *)
Theorem call_only_sets_force_positional fuel self argi c self' argi' :
  run fuel self argi = Ok (c, self', argi') →
  (appeal self' = appeal self ∧ force_positional self' = force_positional self)
  ∨ (appeal self' = set_root_force_positional true (appeal self)
     ∧ force_positional self' = true).
Proof.
intros H. apply run_flags in H. unfold flags_step, flags in H.
destruct H as [H|H]; simplify_eq; [left|right]; done.
Qed.

End InterpreterFlags.

Lemma call_only_sets_force_positional_witness :
  ∃ self self',
    CharmInterpreter.init Appeal_init Examples.cmd_xy = Ok self
    ∧ CharmInterpreter.appeal self'
      = set_root_force_positional true (CharmInterpreter.appeal self)
    ∧ CharmInterpreter.force_positional self' = true.
Proof.
pose_ok s0 (CharmInterpreter.init Appeal_init Examples.cmd_xy).
pose_ok r (CharmInterpreter.run 20 s0 ["x"; "--"; "-c"]).
exists s0, r.1.2. split; [reflexivity|].
destruct (call_only_sets_force_positional 20 s0 ["x"; "--"; "-c"]
            r.1.1 r.1.2 r.2) as [[H1 H2]|H]; [vm_compute; reflexivity| |exact H].
vm_compute in H2. discriminate H2.
Defined.

Section InterpreterLoop.

Import CharmInterpreter.

(** When [__next__] has no instruction left to deliver, nothing is
  running any more. *)
Lemma next_from_None stack : ∀ self self',
  call_stack self = stack →
  next_from stack self = Ok (None, self') → running self' = false.
Proof.
induction stack as [|cpse stack IH]; intros self self' Hs H; cbn in H.
- unfold running. rewrite orb_false_r in H.
  destruct (ip_bool (ip (regs self))) eqn:Eip; cbn in H.
  + destruct (ip (regs self)) as [it|] eqn:Eit; [|done].
    destruct (prog_opcodes (it_program it) !! it_ip it) eqn:El; [done|].
    cbn in Eip. case_bool_decide as Hlt; [|done].
    apply lookup_lt_is_Some_2 in Hlt. rewrite El in Hlt. by destruct Hlt.
  + simplify_eq. by rewrite Eip, Hs.
- rewrite orb_true_r in H. cbn in H.
  destruct (ip (regs self)) as [it|]; [|done].
  destruct (prog_opcodes (it_program it) !! it_ip it); [done|].
  by apply IH in H.
Qed.

Lemma phase1_None fuel has_args : ∀ self self',
  phase1 fuel has_args self = Ok (self', None) → running self' = false.
Proof.
induction fuel as [|fuel IH]; intros self self' H; [done|].
cbn [phase1] in H. inv_bind H as [r self1] E.
destruct r as [i|].
- destruct i; try done; inv_bind H as self2 E2; by apply IH in H.
- injection H as <-. by eapply next_from_None.
Qed.

Lemma phase2_Return argi : ∀ op self c self' argi',
  phase2 argi op self = Ok (Return c self' argi') →
  op = None ∧ running self' = running self
  ∧ command_converter_of self' = Ok c.
Proof.
induction argi as [|a argi IH]; intros op self c self' argi' H;
  cbn [phase2] in H; [done|].
destruct (is_positional_argument self op a).
{ unfold positional in H.
  destruct op; [repeat case_match; by inv_binds H|].
  inv_bind H as c' E. by simplify_eq. }
destruct (option_space_oparg (appeal self)); [|done]. cbn in H.
destruct (String.eqb a "--").
- inv_bind H as u E. by apply IH in H.
- unfold invoke_option in H.
  repeat (first [ progress simplify_eq | progress inv_binds H | case_match ]).
Qed.

Lemma running_unwind self : running (unwind self) = false.
Proof. done. Qed.

(** X2.  However [__call__] returns (by the [return] in the loop over
  the arguments or after the loop) the interpreter has stopped: no
  program is left running, and the converter returned is
  [self.converters[self.command_converter_key]] of the final
  state. *)
Theorem call_returns_stopped fuel : ∀ self argi c self' argi',
  run fuel self argi = Ok (c, self', argi') →
  running self' = false ∧ command_converter_of self' = Ok c.
Proof.
induction fuel as [|fuel IH]; intros self argi c self' argi' H; [done|].
cbn [run] in H.
destruct (running self || match argi with [] => false | _ => true end).
- inv_bind H as [self1 op] E. inv_bind H as r E2.
  destruct r as [c1 self2 argi2|self2 argi2]; [|by eapply IH].
  simplify_eq. apply phase2_Return in E2 as (-> & Hr & Hc).
  apply phase1_None in E. split; [congruence|done].
- inv_bind H as [c1 self1] E. simplify_eq.
  unfold finish_call in E.
  repeat (first [ progress simplify_eq | progress inv_binds E | case_match ]).
  done.
Qed.

End InterpreterLoop.

Lemma call_returns_stopped_witness :
  ∃ c self argi,
    CharmInterpreter.parse 20 Appeal_init Examples.cmd_abc ["-a"; "sub"; "x"]
    = Ok (c, self, argi)
    ∧ CharmInterpreter.running self = false
    ∧ CharmInterpreter.command_converter_of self = Ok c.
Proof.
pose_ok s0 (CharmInterpreter.init Appeal_init Examples.cmd_abc).
pose_ok r (CharmInterpreter.run 20 s0 ["-a"; "sub"; "x"]).
exists r.1.1, r.1.2, r.2. split; [vm_compute; reflexivity|].
apply (call_returns_stopped 20 s0 ["-a"; "sub"; "x"] r.1.1 r.1.2 r.2).
vm_compute; reflexivity.
Defined.

Section ForcePositional.

Import CharmInterpreter.

(** The states an interpreter passes through at the boundaries of the
  two parts of its loop. *)
Inductive reaches (self : t) : t → Prop :=
| reaches_refl : reaches self self
| reaches_phase1 s1 s2 fuel has_args op :
    reaches self s1 → phase1 fuel has_args s1 = Ok (s2, op) →
    reaches self s2
| reaches_phase2 s1 r argi op :
    reaches self s1 → phase2 argi op s1 = Ok r →
    reaches self (exit_state r).

Lemma reaches_force_positional self s :
  reaches self s → force_positional self = true → force_positional s = true.
Proof.
induction 1 as [|s1 s2 fuel b op _ IH H|s1 r argi op _ IH H]; intros Hf.
- done.
- apply phase1_flags in H. injection H as -> _. auto.
- apply phase2_flags in H as [H|H]; injection H as -> _; auto.
Qed.

Lemma forced_is_positional self op a argi :
  force_positional self = true →
  phase2 (a :: argi) op self = positional self op a argi.
Proof.
intros H. cbn [phase2]. unfold is_positional_argument. by rewrite H.
Qed.

(** X3.  A ["--"] that is read as such (no earlier ["--"], no oparg
  pending) is consumed, sets the flag on the interpreter and on the
  root object, and hands the token after it to the positional
  branch, whatever that token looks like. *)
Theorem double_dash_forces_next_token self op a argi :
  is_positional_argument self op "--" = false →
  option_space_oparg (appeal self) = true →
  phase2 ("--" :: a :: argi) op self
  = positional
      (set_appeal (set_root_force_positional true (appeal self))
         (set_force_positional true self)) op a argi.
Proof.
intros Hp Ho. cbn [phase2]. rewrite Hp, Ho. cbn.
unfold is_positional_argument in Hp |- *.
destruct (force_positional self); [done|]. done.
Qed.

(** X4.  The flag set by ["--"] outlives the parse: when a
  [__call__] that read a ["--"] returns, [force_positional] is
  true on the root object, and every interpreter created on that
  root object afterwards starts with the flag set and sends each
  argument it reads, in every state it reaches, to the positional
  branch. *)
Theorem double_dash_outlives_the_parse
    fuel self s1 op argi c self' argi' :
  phase1 fuel true self = Ok (s1, op) →
  is_positional_argument s1 op "--" = false →
  run (S fuel) self ("--" :: argi) = Ok (c, self', argi') →
  root_force_positional (appeal self') = true
  ∧ ∀ program2 self2 s,
      init (appeal self') program2 = Ok self2 →
      reaches self2 s →
      force_positional s = true
      ∧ ∀ op2 a argi2,
          phase2 (a :: argi2) op2 s = positional s op2 a argi2.
Proof.
intros H1 Hp H. cbn [run] in H. rewrite orb_true_r, H1 in H. cbn in H.
unfold mbind, result_bind in H. cbn [bind] in H.
inv_bind H as r E.
assert (root_force_positional (appeal (exit_state r)) = true) as Hr.
{ cbn [phase2] in E. rewrite Hp in E.
  destruct (option_space_oparg (appeal s1)); [|done]. cbn in E.
  inv_bind E as u Eu. apply phase2_flags in E as [E|E];
    injection E as _ ->; done. }
assert (root_force_positional (appeal self') = true) as Hr'.
{ destruct r as [c1 self2 argi2|self2 argi2]; [by simplify_eq|].
  apply run_flags in H as [H|H]; injection H as _ ->; done. }
split; [done|]. intros program2 self2 s Hi Hs.
assert (force_positional self2 = true) as Hf.
{ unfold init in Hi. inv_bind Hi as u Eu. by simplify_eq. }
pose proof (reaches_force_positional _ _ Hs Hf) as Hfs.
split; [done|]. intros. by apply forced_is_positional.
Qed.

(** X5.  A positional argument that arrives when the program has
  finished is nobody's: [__call__] pushes it back and returns the
  command's converter at once, raising nothing.  The arguments are
  all still there and the state is the one the program ended
  in. *)
Theorem unwanted_positional_is_pushed_back fuel self s1 a argi c :
  phase1 fuel true self = Ok (s1, None) →
  is_positional_argument s1 None a = true →
  command_converter_of s1 = Ok c →
  run (S fuel) self (a :: argi) = Ok (c, s1, a :: argi).
Proof.
intros H1 Hp Hc. cbn [run]. rewrite orb_true_r, H1. cbn.
unfold mbind, result_bind. cbn [bind phase2]. rewrite Hp.
unfold positional. rewrite Hc. done.
Qed.

End ForcePositional.

Lemma double_dash_forces_next_token_witness :
  ∃ self self',
    CharmInterpreter.phase1 10 true self = Ok (self', None)
    ∧ CharmInterpreter.phase2 ["--"; "-a"] None self'
      = CharmInterpreter.positional
          (CharmInterpreter.set_appeal
             (set_root_force_positional true (CharmInterpreter.appeal self'))
             (CharmInterpreter.set_force_positional true self'))
          None "-a" [].
Proof.
pose_ok s0 (CharmInterpreter.init Appeal_init Examples.cmd_abc).
pose_ok r (CharmInterpreter.phase1 10 true s0).
exists s0, r.1. split; [vm_compute; reflexivity|].
apply (double_dash_forces_next_token r.1 None "-a" []); reflexivity.
Defined.

Lemma double_dash_outlives_the_parse_witness :
  ∃ self' self2,
    CharmInterpreter.init (CharmInterpreter.appeal self') Examples.cmd_xy
    = Ok self2
    ∧ CharmInterpreter.force_positional self2 = true
    ∧ ∀ op2 a argi2,
        CharmInterpreter.phase2 (a :: argi2) op2 self2
        = CharmInterpreter.positional self2 op2 a argi2.
Proof.
pose_ok s0 (CharmInterpreter.init Appeal_init Examples.cmd_abc).
pose_ok p (CharmInterpreter.phase1 10 true s0).
pose_ok r (CharmInterpreter.run 11 s0 ["--"; "-a"]).
pose_ok s2 (CharmInterpreter.init (CharmInterpreter.appeal r.1.2)
              Examples.cmd_xy).
exists r.1.2, s2. split; [vm_compute; reflexivity|].
apply (proj2 (double_dash_outlives_the_parse 10 s0 p.1 p.2 ["-a"]
                r.1.1 r.1.2 r.2
                ltac:(vm_compute; reflexivity) ltac:(reflexivity)
                ltac:(vm_compute; reflexivity))
         Examples.cmd_xy s2 s2 ltac:(vm_compute; reflexivity)
         (reaches_refl s2)).
Defined.

Lemma unwanted_positional_is_pushed_back_witness :
  ∃ c self,
    CharmInterpreter.parse 11 Appeal_init Examples.cmd_abc ["sub"; "x"]
    = Ok (c, self, ["sub"; "x"]).
Proof.
pose_ok s0 (CharmInterpreter.init Appeal_init Examples.cmd_abc).
pose_ok p (CharmInterpreter.phase1 10 true s0).
exists 0%nat, p.1.
change (CharmInterpreter.run 11 s0 ["sub"; "x"] = Ok (0%nat, p.1, ["sub"; "x"])).
apply (unwanted_positional_is_pushed_back 10 s0 p.1 "sub" ["x"] 0%nat);
  vm_compute; reflexivity.
Defined.

Section ShortOptions.

Import CharmInterpreter.

(** A token made of a dash and at least one more character, the first
  of them not a dash. *)
Definition short (x : ascii) (r : string) : string :=
String "-" (String x r).

Lemma is_positional_short self op x r :
  is_positional_argument self op (short x r)
  = force_positional self || is_oparg op.
Proof.
unfold is_positional_argument, short. cbn.
by rewrite !orb_false_r.
Qed.

Lemma short_not_double_dash x r :
  x ≠ "-"%char →
  startswith "--" (short x r) = false ∧ String.eqb (short x r) "--" = false.
Proof.
intros Hx. unfold short. cbn -[Ascii.eqb].
assert (Ascii.eqb x "-" = false) as H1 by by apply Ascii.eqb_neq.
assert (Ascii.eqb "-" x = false) as H2
  by (apply Ascii.eqb_neq; congruence).
by rewrite H1, H2, !Ascii.eqb_refl.
Qed.

(** [partition("=")] of a short token whose rest holds no ["="]. *)
Lemma partition_eq_short x r :
  x ≠ "="%char → partition_eq r = (r, false, "") →
  partition_eq (short x r) = (short x r, false, "").
Proof.
intros Hx Hr. unfold short. cbn -[Ascii.eqb].
assert (Ascii.eqb x "=" = false) as -> by by apply Ascii.eqb_neq.
by rewrite Hr.
Qed.

Lemma partition_eq_short_equals x v :
  x ≠ "="%char →
  partition_eq (short x (String "=" v)) = (short x "", true, v).
Proof.
intros Hx. unfold short. cbn -[Ascii.eqb].
by assert (Ascii.eqb x "=" = false) as -> by by apply Ascii.eqb_neq.
Qed.

(** The one place where [invoke_option] looks at the token. *)
Definition isolate (self : t) (a : string) (argi : list string) :=
let double_dash := startswith "--" a in
let try_to_split_value :=
  double_dash || short_option_equals_oparg (appeal self) in
let '(a, split_value) :=
  if try_to_split_value then
    let '(a, equals, _split_value) := partition_eq a in
    (a, if equals : bool then Some _split_value else None)
  else (a, None) in
if double_dash then
  entry ← Options.getitem a (prog_options (program (regs self)))
            (options self);
  Ok (a, entry, split_value, argi)
else short_option self a split_value argi.

Lemma invoke_option_isolate self op a argi a' argi' :
  isolate self a argi = isolate self a' argi' →
  invoke_option self op a argi = invoke_option self op a' argi'.
Proof.
unfold isolate, invoke_option. intros H.
destruct (startswith "--" a || short_option_equals_oparg (appeal self)),
  (startswith "--" a' || short_option_equals_oparg (appeal self));
  repeat (let x := fresh in destruct (partition_eq _) as [[? x] ?];
          try destruct x);
  by rewrite H.
Qed.

(** The bundling step on the token alone. *)
Lemma isolate_bundle self x r rest :
  x ≠ "-"%char → x ≠ "="%char → r ≠ "" →
  partition_eq r = (r, false, "") →
  (∀ P g mn mx tok,
     Options.getitem (String x "") (prog_options (program (regs self)))
       (options self) = Ok (P, g, mn, mx, tok) → mx = Fin 0) →
  isolate self (short x r) rest
  = isolate self (short x "") (String "-" r :: rest).
Proof.
intros Hd He Hr Hp Hx. unfold isolate.
destruct (short_not_double_dash x r Hd) as [-> _].
destruct (short_not_double_dash x "" Hd) as [-> _].
rewrite (partition_eq_short x r He Hp), (partition_eq_short x "" He eq_refl).
assert (short_option self (short x r) None rest
        = short_option self (short x "") None (String "-" r :: rest)) as E'.
{ unfold short_option, short.
  destruct (Options.getitem _ _ _) as [[[[[P g] mn] mx] tok]|e|] eqn:E;
    [|done|done].
  rewrite (Hx _ _ _ _ _ eq_refl). cbn.
  destruct r; [done|]. done. }
destruct (short_option_equals_oparg (appeal self)); cbn; exact E'.
Qed.

Lemma phase2_bundle self op x r rest :
  x ≠ "-"%char → x ≠ "="%char → r ≠ "" →
  partition_eq r = (r, false, "") →
  is_positional_argument self op (short x "") = false →
  (∀ P g mn mx tok,
     Options.getitem (String x "") (prog_options (program (regs self)))
       (options self) = Ok (P, g, mn, mx, tok) → mx = Fin 0) →
  phase2 (short x r :: rest) op self
  = phase2 (short x "" :: String "-" r :: rest) op self.
Proof.
intros Hd He Hr Hp Hpos Hx. cbn [phase2].
rewrite is_positional_short in Hpos |- *. rewrite is_positional_short, Hpos.
destruct (short_not_double_dash x r Hd) as [_ ->].
destruct (short_not_double_dash x "" Hd) as [_ ->].
destruct (negb (option_space_oparg (appeal self))); [done|].
apply invoke_option_isolate. by apply isolate_bundle.
Qed.

(** X6.  Bundled short options.  When [-x] is read as an option that
  takes no argument, the token [-xr] is the two tokens [-x] and
  [-r]: [__call__] ends in the same way on both command lines, in
  the same state with the same converters, or with the same
  exception.  [x] is neither a dash nor an equals sign, and [r] is
  not empty and holds no equals sign. *)
Theorem bundled_short_options fuel self s1 op x r rest :
  x ≠ "-"%char → x ≠ "="%char → r ≠ "" →
  partition_eq r = (r, false, "") →
  phase1 fuel true self = Ok (s1, op) →
  is_positional_argument s1 op (short x "") = false →
  (∀ P g mn mx tok,
     Options.getitem (String x "") (prog_options (program (regs s1)))
       (options s1) = Ok (P, g, mn, mx, tok) → mx = Fin 0) →
  run (S fuel) self (short x r :: rest)
  = run (S fuel) self (short x "" :: String "-" r :: rest).
Proof.
intros Hd He Hr Hp H1 Hpos Hx. cbn [run]. rewrite !orb_true_r, H1.
cbn -[phase2 short].
by rewrite (phase2_bundle s1 op x r rest).
Qed.

End ShortOptions.

Lemma bundled_short_options_witness :
  ∃ c self,
    CharmInterpreter.parse 11 Appeal_init Examples.cmd_abc ["-abc"]
    = CharmInterpreter.parse 11 Appeal_init Examples.cmd_abc ["-a"; "-bc"]
    ∧ CharmInterpreter.parse 11 Appeal_init Examples.cmd_abc ["-abc"]
      = Ok (c, self, []).
Proof.
pose_ok s0 (CharmInterpreter.init Appeal_init Examples.cmd_abc).
pose_ok p (CharmInterpreter.phase1 10 true s0).
pose_ok r (CharmInterpreter.run 11 s0 ["-abc"]).
exists r.1.1, r.1.2. split; [|vm_compute; reflexivity].
change (CharmInterpreter.run 11 s0 ["-abc"]
        = CharmInterpreter.run 11 s0 ["-a"; "-bc"]).
apply (bundled_short_options 10 s0 p.1 p.2 "a" "bc" []);
  try done; try (vm_compute; reflexivity).
intros P g mn mx tok H. vm_compute in H. congruence.
Defined.

Section SplitValues.

Import CharmInterpreter.

Lemma isolate_equals self f v argi :
  f ≠ "-"%char → f ≠ "="%char →
  short_option_equals_oparg (appeal self) = true →
  isolate self (short f (String "="%char v)) argi
  = (entry ← Options.getitem (String f "")
               (prog_options (program (regs self))) (options self);
     Ok (String f "", entry, Some v, argi)).
Proof.
intros Hd He Hf. unfold isolate.
destruct (short_not_double_dash f (String "="%char v) Hd) as [-> _].
rewrite Hf, (partition_eq_short_equals f v He). cbn -[Options.getitem].
by destruct (Options.getitem _ _ _) as [[[[[P g] mn] mx] tok]|e|].
Qed.

Lemma isolate_concatenated self f v argi P g tok :
  f ≠ "-"%char → f ≠ "="%char → v ≠ "" →
  partition_eq v = (v, false, "") →
  short_option_concatenated_oparg (appeal self) = true →
  Options.getitem (String f "") (prog_options (program (regs self)))
    (options self) = Ok (P, g, Fin 0, Fin 1, tok) →
  isolate self (short f v) argi
  = Ok (String f "", (P, g, Fin 0, Fin 1, tok), Some v, argi).
Proof.
intros Hd He Hv Hp Hc Hg. unfold isolate.
destruct (short_not_double_dash f v Hd) as [-> _].
rewrite (partition_eq_short f v He Hp).
assert (short_option self (short f v) None argi
        = Ok (String f "", (P, g, Fin 0, Fin 1, tok), Some v, argi)) as E.
{ unfold short_option, short. rewrite Hg, Hc. cbn.
  destruct v; [done|]. done. }
destruct (short_option_equals_oparg (appeal self)); cbn; exact E.
Qed.

(** What [invoke_option] does once the option is isolated. *)
Definition dispatch (self : t) (op : option CharmInstruction)
  (r : string * (CharmProgram * string * bound * bound * nat)
       * option string * list string) : result exit :=
let '(option, entry, split_value, argi) := r in
let '(program, group_id, minimum_arguments, maximum_arguments, token) := entry in
let self := set_program_local (Some program) self in
self ←
  match id_to_group self !! group_id with
  | None => Raise KeyError
  | Some g =>
      Ok (set_group_heap
            (alter (ArgumentGroup.set_laden true) g (group_heap self)) self)
  end;
denormalized_option ← denormalize_option option;
self ← match op with
       | Some _ => rewind_one_instruction self
       | None => Ok self
       end;
opts ← Options.pop_until_token token (options self);
let self := set_options (Options.push opts) self in
argi ←
  match split_value with
  | None => Ok argi
  | Some v =>
      if bound_eqb maximum_arguments (Fin 0) then
        Raise (AppealUsageError
          (denormalized_option +:+ "=" +:+ v
           +:+ " isn't allowed, because <function denormalize_option>"
           +:+ " doesn't take an argument"))
      else if negb (bound_eqb maximum_arguments (Fin 1))
              && bound_leb (Fin 2) maximum_arguments then
        Raise (AppealUsageError
          (denormalized_option +:+ "=" +:+ v
           +:+ " isn't allowed, because <function denormalize_option>"
           +:+ " takes multiple arguments"))
      else Ok (v :: argi)
  end;
Ok (Resume (call program self) argi).

Lemma invoke_option_dispatch self op a argi :
  invoke_option self op a argi = (r ← isolate self a argi; dispatch self op r).
Proof.
unfold invoke_option, isolate, dispatch.
destruct (startswith "--" a || short_option_equals_oparg (appeal self));
  [destruct (partition_eq a) as [[a' []] v]|];
  destruct (startswith "--" a); cbn -[Options.getitem short_option];
  repeat (match goal with
          | |- context [Options.getitem ?o ?p ?s] =>
              destruct (Options.getitem o p s) as [[[[[? ?] ?] ?] ?]|?|]
          | |- context [short_option ?s ?a ?v ?l] =>
              destruct (short_option s a v l) as [[[[? [[[[? ?] ?] ?] ?]] ?] ?]|?|]
          end; cbn -[Options.getitem short_option]; try done).
Qed.

Lemma dispatch_split_value self op f P g tok v argi :
  dispatch self op (f, (P, g, Fin 0, Fin 1, tok), Some v, argi)
  = dispatch self op (f, (P, g, Fin 0, Fin 1, tok), None, v :: argi).
Proof. done. Qed.

Lemma dispatch_Ok self op o P g mn mx tok argi r :
  dispatch self op (o, (P, g, mn, mx, tok), None, argi) = Ok r →
  ∃ s, r = Resume (call P s) argi.
Proof.
unfold dispatch. intros H.
repeat (first [ progress simplify_eq | progress inv_binds H | case_match ]);
  eauto.
Qed.

Lemma phase2_short self op f r argi :
  f ≠ "-"%char →
  is_positional_argument self op (short f "") = false →
  option_space_oparg (appeal self) = true →
  phase2 (short f r :: argi) op self = invoke_option self op (short f r) argi.
Proof.
intros Hd Hpos Ho. cbn [phase2].
rewrite is_positional_short in Hpos |- *. rewrite Hpos, Ho.
destruct (short_not_double_dash f r Hd) as [_ ->]. done.
Qed.

(** X7.  An option [-f] that takes one optional argument gets the
  value [v] in three spellings that [__call__] cannot tell apart:
  [-f=v], [-fv] (for a [v] that is not empty and holds no equals
  sign) and [-f] followed by [v].  In all three the program of
  [-f] is called with [v] pushed back as the next argument. *)
Theorem option_value_spellings self op f v argi P g tok :
  f ≠ "-"%char → f ≠ "="%char →
  is_positional_argument self op (short f "") = false →
  option_space_oparg (appeal self) = true →
  short_option_equals_oparg (appeal self) = true →
  short_option_concatenated_oparg (appeal self) = true →
  Options.getitem (String f "") (prog_options (program (regs self)))
    (options self) = Ok (P, g, Fin 0, Fin 1, tok) →
  phase2 (short f (String "="%char v) :: argi) op self
  = phase2 (short f "" :: v :: argi) op self
  ∧ (v ≠ "" → partition_eq v = (v, false, "") →
     phase2 (short f v :: argi) op self
     = phase2 (short f "" :: v :: argi) op self)
  ∧ ∀ r, phase2 (short f "" :: v :: argi) op self = Ok r →
         ∃ s, r = Resume (call P s) (v :: argi).
Proof.
intros Hd He Hpos Ho Hq Hc Hg.
assert (invoke_option self op (short f "") (v :: argi)
        = dispatch self op (String f "", (P, g, Fin 0, Fin 1, tok), None,
                            v :: argi)) as E.
{ rewrite invoke_option_dispatch.
  replace (isolate self (short f "") (v :: argi))
    with (Ok (String f "", (P, g, Fin 0, Fin 1, tok), @None string,
              v :: argi)); [done|].
  unfold isolate.
  destruct (short_not_double_dash f "" Hd) as [-> _].
  rewrite Hq. cbn [orb]. rewrite (partition_eq_short f "" He eq_refl).
  unfold short_option, short. by rewrite Hg. }
rewrite !phase2_short by done. rewrite E. split; [|split].
- rewrite invoke_option_dispatch, isolate_equals, Hg by done.
  apply dispatch_split_value.
- intros Hv Hp.
  rewrite invoke_option_dispatch,
    (isolate_concatenated self f v argi P g tok) by done.
  apply dispatch_split_value.
- intros r. apply dispatch_Ok.
Qed.

(** X8.  What [__call__] makes of the rest [r] of a short token
  [-fr] depends on the arguments [-f] takes, looked up as minimum
  [mn] and maximum [mx] (never negative).  The rest is a value for
  [-f] only when [-f] takes one optional argument and the
  concatenated syntax is enabled; it is more short options,
  pushed back as [-r], only when [-f] takes no argument; in every
  other case the token is refused. *)
Theorem concatenated_value_only_when_optional
    self f r split_value argi P g mn mx tok res :
  r ≠ "" → bound_le (Fin 0) mx →
  Options.getitem (String f "") (prog_options (program (regs self)))
    (options self) = Ok (P, g, mn, mx, tok) →
  short_option self (short f r) split_value argi = Ok res →
  (mx = Fin 0
   ∧ res = (String f "", (P, g, mn, mx, tok), split_value,
            String "-" r :: argi))
  ∨ (mn = Fin 0 ∧ mx = Fin 1
     ∧ short_option_concatenated_oparg (appeal self) = true
     ∧ split_value = None
     ∧ res = (String f "", (P, g, mn, mx, tok), Some r, argi)).
Proof.
intros Hr Hmx Hg H. unfold short_option, short in H. rewrite Hg in H.
cbn -[bound_leb bound_eqb] in H. destruct r as [|c r]; [done|].
cbn -[bound_leb bound_eqb] in H.
destruct (bound_eqb mx (Fin 0)) eqn:E0.
{ left. destruct mx as [z|]; [|done]. cbn in E0.
  apply Z.eqb_eq in E0 as ->. by simplify_eq. }
destruct (bound_leb (Fin 2) mx) eqn:E2; [cbv zeta in H; done|].
destruct (short_option_concatenated_oparg (appeal self)); cbn in H.
- destruct (bound_eqb mn (Fin 0)) eqn:En; cbn in H.
  + destruct split_value; [done|]. right.
    destruct mn as [n|]; [|done]. cbn in En. apply Z.eqb_eq in En as ->.
    destruct mx as [z|]; [|done]. cbn in E0, E2, Hmx.
    unfold bound_le in Hmx. cbn in Hmx.
    assert (z = 1) as -> by lia. by simplify_eq.
  + by inv_binds H.
- by inv_binds H.
Qed.

End SplitValues.

Lemma option_value_spellings_witness :
  ∃ s,
    CharmInterpreter.phase2 ["-f=hi"] None s
    = CharmInterpreter.phase2 ["-f"; "hi"] None s
    ∧ CharmInterpreter.phase2 ["-fhi"] None s
      = CharmInterpreter.phase2 ["-f"; "hi"] None s.
Proof.
pose_ok s0 (CharmInterpreter.init Appeal_init Examples.cmd_f).
pose_ok p (CharmInterpreter.phase1 10 true s0).
exists p.1.
pose proof (option_value_spellings p.1 None "f" "hi" [] Examples.option_f
              "cmd ag-1" 1%nat ltac:(done) ltac:(done)
              ltac:(reflexivity) ltac:(reflexivity) ltac:(reflexivity)
              ltac:(reflexivity) ltac:(vm_compute; reflexivity))
  as (H1 & H2 & _).
split; [exact H1|]. apply H2; done.
Defined.

Lemma concatenated_value_only_when_optional_witness :
  ∃ s,
    CharmInterpreter.short_option s "-fhi" None []
    = Ok ("f", (Examples.option_f, "cmd ag-1", Fin 0, Fin 1, 1%nat),
          Some "hi", []).
Proof.
pose_ok s0 (CharmInterpreter.init Appeal_init Examples.cmd_f).
pose_ok p (CharmInterpreter.phase1 10 true s0).
pose_ok r (CharmInterpreter.short_option p.1 "-fhi" None []).
exists p.1.
pose proof (concatenated_value_only_when_optional p.1 "f" "hi" None []
              Examples.option_f "cmd ag-1" (Fin 0) (Fin 1) 1%nat r
              ltac:(done) ltac:(done) ltac:(vm_compute; reflexivity)
              ltac:(vm_compute; reflexivity))
  as [[H _]|(_ & _ & _ & _ & H)]; [done|].
vm_compute. reflexivity.
Defined.

Section OptionScopes.

Import Options.

Ltac red_bind := unfold mbind, result_bind; cbn [bind].

(** The scope stack is well formed when the tokens of the current dict
  and of the stack are pairwise distinct, each of them has its dict,
  and none of them is a token still to be handed out. *)
Definition wf (self : t) : Prop :=
NoDup (token self :: stack self)
∧ ∀ tok, tok ∈ token self :: stack self →
    is_Some (token_to_dict self !! tok) ∧ (tok < next_token self)%nat.

Lemma wf_options self : wf self → ∃ d, options self = Ok d.
Proof.
intros [_ H]. destruct (H (token self)) as [[d Hd] _]; [set_solver|].
exists d. unfold options. by rewrite Hd.
Qed.

Lemma wf_init : wf init.
Proof.
split; cbn.
- apply NoDup_singleton.
- intros tok ->%list_elem_of_singleton. split; [|lia].
  rewrite lookup_insert_eq. eauto.
Qed.

Lemma wf_push self : wf self → wf (push self).
Proof.
intros [Hn H]. split; cbn.
- apply NoDup_cons. split; [|done].
  intros Hin. apply H in Hin as [_ Hlt]. lia.
- intros tok [->|Hin]%elem_of_cons.
  + rewrite lookup_insert_eq. split; [eauto|lia].
  + apply H in Hin as [Hs Hlt]. split; [|lia].
    rewrite lookup_insert_ne by lia. done.
Qed.

Lemma wf_setitem self o v self' :
  wf self → setitem o v self = Ok self' → wf self'.
Proof.
intros [Hn H] E. unfold setitem in E. inv_bind E as d Ed. simplify_eq.
split; cbn; [done|]. intros tok Hin. apply H in Hin as [Hs Hlt].
split; [|done]. destruct (decide (tok = token self)) as [->|Hne].
- rewrite lookup_insert_eq. eauto.
- by rewrite lookup_insert_ne.
Qed.

Lemma pop_wf self tok st :
  wf self → stack self = tok :: st →
  pop self = Ok {| stack := st;
                   token_to_dict := delete (token self) (token_to_dict self);
                   token := tok; next_token := next_token self |}
  ∧ wf {| stack := st;
          token_to_dict := delete (token self) (token_to_dict self);
          token := tok; next_token := next_token self |}.
Proof.
intros Hwf Hst. destruct (wf_options self Hwf) as [d Hd].
destruct Hwf as [Hn H]. rewrite Hst in Hn, H. split.
- unfold pop. rewrite Hd, Hst. done.
- split; cbn.
  + by apply NoDup_cons in Hn as [_ Hn].
  + intros t Hin. destruct (H t) as [Hs Hlt]; [set_solver|].
    split; [|done]. rewrite lookup_delete_ne; [done|].
    intros <-. apply NoDup_cons in Hn as [Hn _]. done.
Qed.

(** [wf] is an invariant of the scope stack. *)
Lemma wf_pop self self' : wf self → pop self = Ok self' → wf self'.
Proof.
intros Hwf E. destruct (stack self) as [|tok st] eqn:Hst.
- unfold pop in E. inv_bind E as d Ed. by rewrite Hst in E.
- destruct (pop_wf self tok st Hwf Hst) as [E' Hwf']. congruence.
Qed.

Lemma find_Some o dicts l P g tok :
  find o dicts l = Ok (Some (P, g, tok)) →
  tok ∈ l ∧ ∃ d, dicts !! tok = Some d ∧ d !! o = Some (P, g).
Proof.
induction l as [|t l IH]; cbn; [done|].
destruct (dicts !! t) as [d|] eqn:Ed; [|done].
destruct (d !! o) as [[P' g']|] eqn:Eo.
- intros ?; simplify_eq. split; [set_solver|eauto].
- intros [Hin Hd]%IH. split; [set_solver|done].
Qed.

Lemma find_cons o dicts t l :
  find o dicts (t :: l)
  = match dicts !! t with
    | None => Raise KeyError
    | Some d =>
        match d !! o with
        | Some (program, group_id) => Ok (Some (program, group_id, t))
        | None => find o dicts l
        end
    end.
Proof. done. Qed.

Lemma find_delete o dicts l t :
  t ∉ l → find o (delete t dicts) l = find o dicts l.
Proof.
induction l as [|t' l IH]; cbn; [done|]. intros Hnin.
rewrite lookup_delete_ne by set_solver.
destruct (dicts !! t'); [|done]. case_match; [done|]. apply IH. set_solver.
Qed.

Lemma dict_ne_refl d : dict_ne d d = false.
Proof. unfold dict_ne. by rewrite bool_decide_eq_true_2. Qed.

Lemma dict_ne_lookup (d1 d2 : dict) o v :
  d1 !! o = None → d2 !! o = Some v → dict_ne d1 d2 = true.
Proof.
intros H1 H2. unfold dict_ne. rewrite bool_decide_eq_false_2; [done|].
intros E. apply (f_equal (.!! o)) in E.
rewrite !lookup_fmap, H1, H2 in E. done.
Qed.

Lemma pop_while_find o P g tok target : ∀ st self n,
  stack self = st → wf self → (length st ≤ n)%nat →
  find o (token_to_dict self) (token self :: st) = Ok (Some (P, g, tok)) →
  token_to_dict self !! tok = Some target →
  ∃ self', pop_while n target self = Ok self'
    ∧ token self' = tok ∧ wf self'
    ∧ token_to_dict self' !! tok = Some target
    ∧ stack self' `suffix_of` st.
Proof.
induction st as [|t1 st IH]; intros self n Hst Hwf Hn Hf Ht.
- destruct (wf_options self Hwf) as [d Hd].
  apply find_Some in Hf as [->%list_elem_of_singleton _].
  exists self. rewrite Hst. split; [|done].
  destruct n; [done|]. cbn [pop_while]. rewrite Hd, Hst. done.
- destruct (wf_options self Hwf) as [d Hd].
  pose proof Hd as Hd'. unfold options in Hd'.
  destruct (token_to_dict self !! token self) as [d'|] eqn:Ed; [|done].
  simplify_eq. rewrite find_cons, Ed in Hf.
  destruct (d !! o) as [[P' g']|] eqn:Eo.
  + simplify_eq. exists self. rewrite Hst.
    split; [|split_and!; try done; by apply suffix_cons_r].
    destruct n; [done|]. cbn [pop_while]. rewrite Hd. red_bind.
    rewrite Hst, dict_ne_refl. done.
  + destruct n as [|n]; [cbn in Hn; lia|].
    pose proof (find_Some _ _ _ _ _ _ Hf) as (Hin & d2 & Hd2 & Ho2).
    assert (d2 = target) as -> by congruence.
    destruct (pop_wf self t1 st Hwf Hst) as [Ep Hwf1].
    assert (token self ∉ t1 :: st) as Hnin.
    { destruct Hwf as [Hnd _]. rewrite Hst in Hnd.
      by apply NoDup_cons in Hnd as [Hnd _]. }
    match type of Hwf1 with wf ?s => set (s1 := s) in * end.
    destruct (IH s1 n eq_refl Hwf1) as (self' & E & H1 & H2 & H3 & H4).
    { cbn in Hn. lia. }
    { unfold s1. cbn [token token_to_dict]. by rewrite find_delete. }
    { unfold s1. cbn [token_to_dict]. rewrite lookup_delete_ne; [done|].
      intros <-. done. }
    exists self'. split_and!; try done; [|by apply suffix_cons_r].
    cbn [pop_while]. rewrite Hd. red_bind. rewrite Hst. cbn [andb].
    rewrite (dict_ne_lookup d target o (P, g)) by done.
    rewrite Ep. red_bind. exact E.
Qed.

(** X9.  The lookup of an option and the unwinding of the scopes
  agree.  When [__getitem__] finds [option] in the scope with
  token [tok], [pop_until_token(tok)] succeeds and pops exactly
  down to that scope: it stops at no other scope on the way
  (although it compares dicts by value) and refuses no dict as
  empty; the option is still found there, with the same
  result. *)
Theorem pop_until_token_reaches_lookup self option po P g mn mx tok :
  wf self →
  getitem option po self = Ok (P, g, mn, mx, tok) →
  ∃ self', pop_until_token tok self = Ok self'
    ∧ token self' = tok ∧ wf self'
    ∧ stack self' `suffix_of` stack self
    ∧ getitem option po self' = Ok (P, g, mn, mx, tok).
Proof.
intros Hwf Hg. unfold getitem in Hg. inv_bind Hg as r Er.
destruct r as [[[P' g'] tok']|]; [|repeat case_match; by inv_binds Hg].
simplify_eq.
pose proof (find_Some _ _ _ _ _ _ Er) as (Hin & target & Ht & Ho).
unfold pop_until_token. case_bool_decide as Htok.
- exists self. split_and!; try done. unfold getitem. by rewrite Er.
- rewrite Ht. rewrite bool_decide_eq_false_2.
  2:{ intros ->. by rewrite lookup_empty in Ho. }
  destruct (pop_while_find option P g tok target (stack self) self
              (length (stack self)) eq_refl Hwf ltac:(lia) Er Ht)
    as (self' & E & H1 & H2 & H3 & H4).
  exists self'. rewrite E. cbn.
  assert (options self' = Ok target) as Hopt.
  { unfold options. by rewrite H1, H3. }
  rewrite Hopt. cbn. rewrite dict_ne_refl.
  split_and!; try done.
  unfold getitem. cbn [find]. rewrite H1, H3, Ho. done.
Qed.

Lemma last_cons_cons {A} (x y : A) l : List.last (y :: l) x = List.last l y.
Proof.
revert x y. induction l as [|z l IH]; intros x y; [done|].
change (List.last (y :: z :: l) x) with (List.last (z :: l) x).
by rewrite (IH x z), (IH y z).
Qed.

Lemma last_elem_of {A} (x : A) l : List.last l x ∈ x :: l.
Proof.
revert x. induction l as [|y l IH]; intros x.
- apply list_elem_of_here.
- rewrite last_cons_cons. apply list_elem_of_further, IH.
Qed.

Lemma pop_times_wf : ∀ st self,
  stack self = st → wf self →
  ∃ self', pop_times (length st) self = Ok self'
    ∧ stack self' = [] ∧ token self' = List.last st (token self)
    ∧ wf self'
    ∧ token_to_dict self' !! token self'
      = token_to_dict self !! token self'.
Proof.
induction st as [|t1 st IH]; intros self Hst Hwf.
- exists self. by rewrite Hst.
- destruct (pop_wf self t1 st Hwf Hst) as [Ep Hwf1].
  match type of Hwf1 with wf ?s => set (s1 := s) in * end.
  destruct (IH s1 eq_refl Hwf1) as (self' & E & H1 & H2 & H3 & H4).
  exists self'. cbn [length pop_times]. rewrite Ep. red_bind.
  split; [exact E|]. split; [done|].
  assert (token self' ∈ t1 :: st) as Hin.
  { rewrite H2. unfold s1. cbn [token]. apply last_elem_of. }
  split_and!; try done.
  + rewrite H2. unfold s1. cbn [token]. by rewrite last_cons_cons.
  + rewrite H4. unfold s1. cbn [token_to_dict].
    rewrite lookup_delete_ne; [done|].
    intros Heq. destruct Hwf as [Hnd _]. rewrite Hst in Hnd.
    apply NoDup_cons in Hnd as [Hnd _]. by rewrite Heq in Hnd.
Qed.

(** X10.  [unmap_all_child_options] on a well-formed scope stack
  always succeeds and collapses it to its base: the stack is
  empty afterwards, the current dict is the one that was at the
  bottom, with its mappings untouched. *)
Theorem unmap_all_child_options_collapses self :
  wf self →
  ∃ self', unmap_all_child_options self = Ok self'
    ∧ stack self' = []
    ∧ token self' = List.last (stack self) (token self)
    ∧ token_to_dict self' !! token self'
      = token_to_dict self !! token self'
    ∧ wf self'.
Proof.
intros Hwf. destruct (pop_times_wf (stack self) self eq_refl Hwf)
  as (self' & E & H1 & H2 & H3 & H4).
exists self'. by split_and!.
Qed.

Lemma find_insert_fresh o dicts k d l :
  k ∉ l → find o (<[k := d]> dicts) l = find o dicts l.
Proof.
induction l as [|t l IH]; [done|]. intros Hnin. rewrite !find_cons.
rewrite lookup_insert_ne by set_solver.
destruct (dicts !! t); [|done]. case_match; [done|]. apply IH. set_solver.
Qed.

Lemma wf_fresh self : wf self → next_token self ∉ token self :: stack self.
Proof. intros [_ H] Hin. apply H in Hin as [_ Hlt]. lia. Qed.

Lemma getitem_push option po self :
  wf self → getitem option po (push self) = getitem option po self.
Proof.
intros Hwf. unfold getitem. f_equal.
change (find option (<[next_token self := ∅]> (token_to_dict self))
          (next_token self :: token self :: stack self)
        = find option (token_to_dict self) (token self :: stack self)).
rewrite find_cons, lookup_insert_eq, lookup_empty.
apply find_insert_fresh, wf_fresh, Hwf.
Qed.

(** X11.  A pushed scope shadows and is forgotten.  After [push], an
  option mapped with [__setitem__] is found with the value just
  given and the token of the new scope, while every other option
  is found as before the [push]; and after [pop] every option,
  this one too, is found as before the [push]. *)
Theorem pushed_scope_shadows self option value po :
  wf self →
  ∃ s1 s2,
    setitem option value (push self) = Ok s1
    ∧ getitem option po s1
      = Ok (value.1, value.2,
            ArgumentGroup.minimum (prog_total value.1),
            ArgumentGroup.maximum (prog_total value.1), next_token self)
    ∧ (∀ o, o ≠ option → getitem o po s1 = getitem o po self)
    ∧ pop s1 = Ok s2
    ∧ (∀ o, getitem o po s2 = getitem o po self).
Proof.
intros Hwf. pose proof (wf_fresh self Hwf) as Hfresh.
set (n := next_token self) in *.
set (m1 := <[n := <[option := value]> ∅]> (<[n := ∅]> (token_to_dict self))).
exists {| stack := token self :: stack self; token_to_dict := m1;
          token := n; next_token := S n |},
       {| stack := stack self; token_to_dict := delete n m1;
          token := token self; next_token := S n |}.
assert (m1 !! n = Some (<[option := value]> ∅)) as Hm1
  by apply lookup_insert_eq.
assert (∀ o, find o m1 (token self :: stack self)
             = find o (token_to_dict self) (token self :: stack self)) as Hf.
{ intros o. unfold m1. by rewrite !find_insert_fresh. }
split_and!.
- unfold setitem, options, push, reset. cbn.
  rewrite lookup_insert_eq. done.
- unfold getitem. cbn [stack token_to_dict token].
  rewrite find_cons, Hm1, lookup_insert_eq. by destruct value.
- intros o Ho. unfold getitem. cbn [stack token_to_dict token].
  rewrite find_cons, Hm1, lookup_insert_ne, lookup_empty, Hf by done. done.
- unfold pop, options. cbn [stack token_to_dict token]. rewrite Hm1. done.
- intros o. unfold getitem. cbn [stack token_to_dict token].
  by rewrite find_delete, Hf.
Qed.

Lemma pop_while_wf target : ∀ n self self',
  wf self → pop_while n target self = Ok self' → wf self'.
Proof.
induction n as [|n IH]; intros self self' Hwf E; cbn [pop_while] in E.
- by simplify_eq.
- inv_bind E as d Ed. case_match; [|by simplify_eq].
  inv_bind E as s1 E1. eapply IH; [|done]. by eapply wf_pop.
Qed.

Lemma wf_pop_until_token self tok self' :
  wf self → pop_until_token tok self = Ok self' → wf self'.
Proof.
intros Hwf E. unfold pop_until_token in E.
case_bool_decide; [by simplify_eq|].
destruct (token_to_dict self !! tok); [|done].
case_bool_decide; [done|]. inv_bind E as s1 E1. inv_bind E as d Ed.
case_match; [done|]. simplify_eq. by eapply pop_while_wf.
Qed.

Lemma wf_unmap_all_child_options self self' :
  wf self → unmap_all_child_options self = Ok self' → wf self'.
Proof.
intros Hwf E.
destruct (pop_times_wf (stack self) self eq_refl Hwf)
  as (s & Es & _ & _ & Hs & _).
unfold unmap_all_child_options in E. congruence.
Qed.

(** X12.  The scope stack stays well formed: a new [Options] is, and
  [push], [pop], [__setitem__], [pop_until_token] and
  [unmap_all_child_options] keep it so whenever they return.  So
  no token is ever handed out twice and no scope on the stack
  loses its dict. *)
Theorem scope_stack_stays_well_formed :
  wf init
  ∧ ∀ self, wf self →
      wf (push self)
      ∧ (∀ self', pop self = Ok self' → wf self')
      ∧ (∀ o v self', setitem o v self = Ok self' → wf self')
      ∧ (∀ tok self', pop_until_token tok self = Ok self' → wf self')
      ∧ (∀ self', unmap_all_child_options self = Ok self' → wf self').
Proof.
split; [apply wf_init|]. intros self Hwf. split_and!.
- by apply wf_push.
- intros self'. by apply wf_pop.
- intros o v self'. by apply wf_setitem.
- intros tok self'. by apply wf_pop_until_token.
- intros self'. by apply wf_unmap_all_child_options.
Qed.

End OptionScopes.

(** A scope stack to try things on: [-c] mapped at the base, its
  child [-b] in the scope pushed for it, and an empty scope on
  top. *)
Definition two_scopes : result Options.t :=
  s ← Options.setitem "c" (Examples.option_c, "cmd ag-1") Options.init;
  s ← Options.setitem "b" (Examples.child_b, "cmd -c ag-1") (Options.push s);
  Ok (Options.push s).

Lemma wf_two_scopes s : two_scopes = Ok s → wf s.
Proof.
unfold two_scopes. intros H. inv_bind H as s1 E1. inv_bind H as s2 E2.
simplify_eq. apply wf_push. eapply wf_setitem; [|exact E2].
apply wf_push. eapply wf_setitem; [|exact E1]. apply wf_init.
Qed.

Lemma pop_until_token_reaches_lookup_witness :
  ∃ s self',
    two_scopes = Ok s
    ∧ Options.pop_until_token 1 s = Ok self'
    ∧ Options.token self' = 1%nat
    ∧ Options.stack self' = [].
Proof.
pose_ok s two_scopes.
destruct (pop_until_token_reaches_lookup s "c" ∅ Examples.option_c "cmd ag-1"
            (Fin 0) (Fin 0) 1%nat (wf_two_scopes s eq_refl)
            ltac:(vm_compute; reflexivity))
  as (self' & E & Ht & _ & _ & _).
exists s, self'. split_and!; [reflexivity|exact E|exact Ht|].
vm_compute in E. by simplify_eq.
Defined.

Lemma unmap_all_child_options_collapses_witness :
  ∃ s self',
    two_scopes = Ok s
    ∧ Options.unmap_all_child_options s = Ok self'
    ∧ Options.stack self' = []
    ∧ Options.token self' = 1%nat.
Proof.
pose_ok s two_scopes.
destruct (unmap_all_child_options_collapses s (wf_two_scopes s eq_refl))
  as (self' & E & Hs & Ht & _ & _).
exists s, self'. split_and!; [reflexivity|exact E|exact Hs|exact Ht].
Defined.

Lemma pushed_scope_shadows_witness :
  ∃ s1 s2,
    Options.setitem "b" (Examples.child_b, "g") (Options.push Options.init)
    = Ok s1
    ∧ Options.pop s1 = Ok s2
    ∧ ∀ o, Options.getitem o ∅ s2 = Options.getitem o ∅ Options.init.
Proof.
destruct (pushed_scope_shadows Options.init "b" (Examples.child_b, "g") ∅
            wf_init) as (s1 & s2 & E1 & _ & _ & E2 & H).
exists s1, s2. split_and!; [exact E1|exact E2|exact H].
Defined.

Lemma scope_stack_stays_well_formed_witness :
  wf (Options.push Options.init).
Proof.
exact (proj1 (proj2 scope_stack_stays_well_formed Options.init
                (proj1 scope_stack_stays_well_formed))).
Defined.


Section ChildOptions.

Import CharmInterpreter.

(** X13.  A positional argument for a pending [consume_argument] that
  is not an oparg is always accepted: it is left in the [o]
  register, counted in the current argument group, which becomes
  laden, and every child option is unmapped, so that the scope
  stack is back at its base. *)
Theorem positional_unmaps_child_options self required a argi :
  wf (options self) →
  ∃ self',
    positional self (Some (CharmInstructionConsumeArgument required false))
      a argi = Ok (Resume self' argi)
    ∧ o (regs self') = Converter.VStr a
    ∧ Options.stack (options self') = []
    ∧ Options.token (options self')
      = List.last (Options.stack (options self)) (Options.token (options self))
    ∧ ∀ g, group (regs self) = Some g →
        group_heap self' !! g
        = (λ ag, ArgumentGroup.set_laden true
                   (ArgumentGroup.set_count (ArgumentGroup.count ag + 1) ag))
          <$> group_heap self !! g.
Proof.
intros Hwf.
destruct (unmap_all_child_options_collapses _ Hwf)
  as (opts & E & Hs & Ht & _ & _).
unfold positional. cbn [is_oparg].
destruct (group (regs self)) as [g|] eqn:Eg; cbn; rewrite ?Eg; cbn;
  rewrite E; cbn; eexists; (split; [reflexivity|]); cbn;
  split_and!; try done.
intros g' [= <-]. by rewrite list_lookup_alter_eq.
Qed.


(** X15.  [rewind_one_instruction] undoes a fetch.  After [__next__]
  has delivered an instruction, whether from the running program
  or, programs that ended having been left, from a caller,
  [rewind_one_instruction] succeeds, and the next [__next__]
  delivers the same instruction again and leaves the interpreter
  as the first fetch left it. *)
Theorem rewind_redelivers_instruction self op self' :
  next self = Ok (Some op, self') →
  ∃ s, rewind_one_instruction self' = Ok s
       ∧ next s = Ok (Some op, self').
Proof.
unfold next at 1. generalize (eq_refl (call_stack self)).
generalize (call_stack self) at 2 3. intros stack. revert self.
induction stack as [|cpse stack IH]; intros self Hs H; cbn [next_from] in H.
- destruct (negb _); [done|].
  destruct (ip (regs self)) as [it|] eqn:Eit; [|done].
  destruct (prog_opcodes (it_program it) !! it_ip it) as [i|] eqn:El; [|done].
  simplify_eq. pose proof (lookup_lt_Some _ _ _ El) as Hlt.
  eexists. unfold rewind_one_instruction. cbn.
  rewrite bool_decide_eq_true_2 by done. split; [reflexivity|].
  unfold next. cbn. rewrite Hs. cbn.
  rewrite bool_decide_eq_true_2 by done. cbn. rewrite El. done.
- destruct (negb _); [done|].
  destruct (ip (regs self)) as [it|] eqn:Eit; [|done].
  destruct (prog_opcodes (it_program it) !! it_ip it) as [i|] eqn:El.
  + simplify_eq. pose proof (lookup_lt_Some _ _ _ El) as Hlt.
    eexists. unfold rewind_one_instruction. cbn.
    rewrite bool_decide_eq_true_2 by done. split; [reflexivity|].
    unfold next. cbn. rewrite Hs. cbn.
    rewrite bool_decide_eq_true_2 by done. cbn. rewrite El. done.
  + by apply IH in H.
Qed.

(** X16.  [call] and [finish] are inverse: finishing a program just
  called restores the registers and the call stack of the
  caller. *)
Theorem finish_call_restores self program :
  finish (call program self) = self.
Proof. by destruct self. Qed.

Lemma next_from_options stack : ∀ self r self',
  next_from stack self = Ok (r, self') → options self' = options self.
Proof.
induction stack as [|cpse stack IH]; intros self r self' H; cbn in H.
- repeat case_match; simplify_eq; done.
- repeat case_match; simplify_eq; try done.
  apply IH in H. by rewrite H.
Qed.

Lemma execute_wf op self self' :
  wf (options self) → execute op self = Ok self' → wf (options self').
Proof.
intros Hwf H. destruct op; cbn in H; unfold jump in H;
  try (repeat (first [ progress simplify_eq
                     | progress inv_binds H
                     | case_match ]); done).
inv_bind H as opts E. simplify_eq. by eapply wf_setitem.
Qed.

Lemma phase1_wf fuel has_args : ∀ self self' op,
  wf (options self) → phase1 fuel has_args self = Ok (self', op) →
  wf (options self').
Proof.
induction fuel as [|fuel IH]; intros self self' op Hwf H; [done|].
cbn [phase1] in H. inv_bind H as [r self1] E.
apply next_from_options in E. rewrite <- E in Hwf.
destruct r as [i|]; [|by simplify_eq].
destruct i; try (inv_bind H as self2 E2; eapply IH; [|exact H];
                 by eapply execute_wf).
injection H as <- <-. by destruct has_args.
Qed.

Lemma phase2_wf argi : ∀ op self r,
  wf (options self) → phase2 argi op self = Ok r →
  wf (options (exit_state r)).
Proof.
induction argi as [|a argi IH]; intros op self r Hwf H; cbn [phase2] in H.
- by simplify_eq.
- destruct (is_positional_argument self op a).
  { unfold positional in H. destruct op as [i|].
    - destruct (is_oparg (Some i)).
      + repeat case_match; by simplify_eq.
      + inv_bind H as opts E. simplify_eq. cbn.
        repeat case_match;
          (eapply wf_unmap_all_child_options; [|exact E]); done.
    - inv_bind H as c E. by simplify_eq. }
  destruct (option_space_oparg (appeal self)); [|done]. cbn in H.
  destruct (String.eqb a "--").
  + inv_bind H as u E. by apply IH in H.
  + rewrite invoke_option_dispatch in H. inv_bind H as res E.
    destruct res as [[[o' [[[[P g] mn] mx] tok]] sv] l].
    unfold dispatch, rewind_one_instruction in H.
    inv_bind H as s1 E1. inv_bind H as dn E2. inv_bind H as s2 E3.
    inv_bind H as opts E4. inv_bind H as l' E5. simplify_eq. cbn.
    apply wf_push. eapply wf_pop_until_token; [|exact E4].
    repeat case_match; by simplify_eq.
Qed.

End ChildOptions.

Lemma positional_unmaps_child_options_witness :
  ∃ self self',
    CharmInterpreter.positional self
      (Some (CharmInstructionConsumeArgument true false)) "x" []
    = Ok (CharmInterpreter.Resume self' [])
    ∧ Options.stack (CharmInterpreter.options self) = [1%nat]
    ∧ Options.stack (CharmInterpreter.options self') = [].
Proof.
pose_ok s0 (CharmInterpreter.init Appeal_init Examples.cmd_xy).
pose_ok p (CharmInterpreter.phase1 10 true s0).
pose_ok q (CharmInterpreter.phase2 ["-c"] p.2 p.1).
pose_ok s (CharmInterpreter.phase1 10 true (exit_state q)).
assert (wf (CharmInterpreter.options s.1)) as Hwf.
{ apply (phase1_wf 10 true (exit_state q) s.1 s.2); [|reflexivity].
  apply (phase2_wf ["-c"] p.2 p.1 q); [|reflexivity].
  apply (phase1_wf 10 true s0 p.1 p.2); [|reflexivity].
  apply wf_init. }
destruct (positional_unmaps_child_options s.1 true "x" [] Hwf)
  as (self' & E & _ & Hs & _).
exists s.1, self'. split_and!; [exact E|reflexivity|exact Hs].
Defined.


Lemma rewind_redelivers_instruction_witness :
  ∃ self op self' s,
    CharmInterpreter.init Appeal_init Examples.cmd_xy = Ok self
    ∧ CharmInterpreter.next self = Ok (Some op, self')
    ∧ CharmInterpreter.rewind_one_instruction self' = Ok s
    ∧ CharmInterpreter.next s = Ok (Some op, self').
Proof.
pose_ok s0 (CharmInterpreter.init Appeal_init Examples.cmd_xy).
pose_ok r (CharmInterpreter.next s0).
destruct (rewind_redelivers_instruction s0
            (CharmInstructionSetGroup
               (ArgumentGroup.init (Fin 2) (Fin 2) "cmd ag-1" false)
               false false) r.2 eq_refl) as (s & E1 & E2).
exists s0, (CharmInstructionSetGroup
              (ArgumentGroup.init (Fin 2) (Fin 2) "cmd ag-1" false)
              false false), r.2, s.
split_and!; [reflexivity|reflexivity|exact E1|exact E2].
Defined.

Section DerivedOptions.

Lemma startswith_dashes_inv (s : string) :
  startswith "--" s = true → ∃ s', s = String "-" (String "-" s').
Proof.
destruct s as [|a [|b s]]; cbn [startswith]; try done.
- by rewrite andb_false_r.
- rewrite andb_true_r. intros [<-%Ascii.eqb_eq <-%Ascii.eqb_eq]%andb_true_iff.
  eauto.
Qed.

(** The two shapes of an accepted option and of its normal form. *)
Lemma normalize_option_Ok (s r : string) :
  normalize_option s = Ok r ↔
  (∃ c, s = String "-" (String c "") ∧ r = String c "")
  ∨ (r = s ∧ startswith "--" s = true ∧ 4 ≤ len s).
Proof.
unfold normalize_option, assert, mbind, result_bind, bind.
destruct (String.eqb_spec s "") as [->|Hne]; cbn [negb].
{ split; [done|]. intros [(c & H & _)|(_ & H & _)]; done. }
destruct (Z.eqb_spec (len s) 1) as [E1|E1]; cbn [negb].
{ split; [done|]. intros [(c & -> & _)|(_ & _ & H)]; [done|lia]. }
destruct (Z.eqb_spec (len s) 3) as [E3|E3]; cbn [negb].
{ split; [done|]. intros [(c & -> & _)|(_ & _ & H)]; [done|lia]. }
destruct (startswith "-" s) eqn:Hd.
2:{ split; [done|]. intros [(c & -> & _)|(_ & H & _)]; [done|].
    apply startswith_dashes_inv in H as [s' ->]. done. }
destruct (Z.eqb_spec (len s) 2) as [E2|E2].
- destruct (length_two_inv _ E2) as (x & y & ->).
  apply startswith_dash_inv in Hd as [s' Hs']. injection Hs' as -> _.
  split.
  + intros [= <-]. left. eauto.
  + intros [(c & [= ->] & ->)|(_ & _ & H)]; [done|]. rewrite E2 in H. lia.
- destruct (startswith "--" s) eqn:Hdd.
  + split.
    * intros [= <-]. right. split_and!; try done.
      apply startswith_dashes_inv in Hdd as [s' ->].
      rewrite !len_cons in *. pose proof (len_nonneg s'). lia.
    * intros [(c & -> & _)|(-> & _)]; [done|done].
  + split; [done|]. intros [(c & -> & _)|(_ & H & _)]; done.
Qed.

(** X17.  The normal forms.  [normalize_option] undoes
  [denormalize_option] exactly on the strings that are normal
  forms of options: one character, or at least four characters
  that start with two dashes.  On every other string the round
  trip fails or gives a different string. *)
Theorem normalize_denormalize_normal_forms (r : string) :
  (∃ s, denormalize_option r = Ok s ∧ normalize_option s = Ok r)
  ↔ (len r = 1 ∨ (startswith "--" r = true ∧ 4 ≤ len r)).
Proof.
unfold denormalize_option, assert, mbind, result_bind, bind.
destruct (String.eqb_spec r "") as [->|Hne]; cbn [negb].
{ split; [by intros (s & H & _)|]. intros [H|[H _]]; done. }
destruct (Z.eqb_spec (len r) 1) as [E1|E1].
- split; [auto|]. intros _. exists ("-" +:+ r). split; [done|].
  apply normalize_option_Ok. left.
  destruct r as [|c [|d r]]; rewrite ?len_cons, ?len_nil in E1; try done.
  + eauto.
  + pose proof (len_nonneg r). lia.
- split.
  + intros (s & [= <-] & [(c & -> & H)|(_ & H1 & H2)]%normalize_option_Ok).
    * done.
    * auto.
  + intros [H|[H1 H2]]; [done|]. exists r. split; [done|].
    apply normalize_option_Ok. auto.
Qed.

Variable isalnum : ascii → bool.
Variable repr : string → string.

Lemma legal_option_normalize (o : string) :
  legal_option isalnum o = true →
  ∃ r, normalize_option o = Ok r ∧ denormalize_option r = Ok o.
Proof.
unfold legal_option.
intros [Hd [[H2 Hc]%andb_true_iff|[H4 Hdd]%andb_true_iff]%orb_true_iff]
  %andb_true_iff.
- apply Z.eqb_eq in H2. destruct (length_two_inv _ H2) as (x & y & ->).
  apply startswith_dash_inv in Hd as [s' Hs']. injection Hs' as -> _.
  exists (String y ""). split; [|done].
  apply normalize_option_Ok. left. eauto.
- apply Z.leb_le in H4. exists o. split.
  + apply normalize_option_Ok. auto.
  + unfold denormalize_option, assert, mbind, result_bind, bind.
    destruct (String.eqb_spec o "") as [->|_]; [done|]. cbn [negb].
    destruct (Z.eqb_spec (len o) 1); [lia|done].
Qed.

(** X18.  [Appeal.option] checks before it normalizes.  For every
  list of option strings the first loop of [Appeal.option] ends
  in one of two ways: it accepts all of them, each one legal and
  given back by [denormalize_option] from the normal form kept
  with it, or it raises [AppealConfigurationError].  The
  assertions of [normalize_option] are never reached by a string
  that fails them. *)
Theorem Appeal_option_check_never_asserts (options : list string) :
  (∃ l, Appeal_option_check isalnum repr options = Ok l
        ∧ Forall2 (λ o p, p.2 = o
                          ∧ legal_option isalnum o = true
                          ∧ normalize_option o = Ok p.1
                          ∧ denormalize_option p.1 = Ok o) options l)
  ∨ (∃ msg, Appeal_option_check isalnum repr options
            = Raise (AppealConfigurationError msg)).
Proof.
destruct options as [|o0 options0]; [right; eauto|].
unfold Appeal_option_check. generalize (o0 :: options0). clear.
intros options. induction options as [|o options IH].
- left. exists []. split; [done|]. constructor.
- cbn [normalized_options].
  destruct (legal_option isalnum o) eqn:Hl; cbn [negb]; [|right; eauto].
  destruct (legal_option_normalize o Hl) as (r & Hr & Hdr). rewrite Hr.
  cbn. destruct IH as [(l & -> & Hall)|(msg & ->)]; [|right; eauto].
  left. exists ((r, o) :: l). split; [done|]. by constructor.
Qed.

Lemma len_lower s : len (lower s) = len s.
Proof.
induction s as [|c s IH]; [done|]. cbn [lower]. rewrite !len_cons. lia.
Qed.

Lemma len_replace_char c (d : ascii) s :
  len (replace_char c (String d "") s) = len s.
Proof.
induction s as [|x s IH]; [done|]. cbn [replace_char].
destruct (Ascii.eqb x c);
  [change (len (String d (replace_char c (String d "") s)) = len (String x s))|];
  rewrite !len_cons; lia.
Qed.

(** X19.  The options [default_options] derives from the name of a
  parameter are always acceptable.  The short one is a dash and
  the first character of the name, and normalizes to that
  character.  The long one is made only for a name of two
  characters or more; it is legal for [Appeal.option] and is its
  own normal form.  For a name of one character the long form
  would be three characters long, which [normalize_option]
  refuses with an assertion error: the guard on the length is
  needed. *)
Theorem default_options_are_normalizable (parameter_name : string) :
  parameter_name ≠ "" →
  ∃ c rest short,
    parameter_name = String c rest
    ∧ short = String "-" (String c "")
    ∧ parameter_name_to_short_option parameter_name = Ok short
    ∧ normalize_option short = Ok (String c "")
    ∧ (rest = "" →
       default_options_list parameter_name = Ok [short]
       ∧ (parameter_name_to_long_option parameter_name
          ≫= normalize_option) = Raise AssertionError)
    ∧ (rest ≠ "" →
       ∃ long,
         parameter_name_to_long_option parameter_name = Ok long
         ∧ default_options_list parameter_name = Ok [short; long]
         ∧ legal_option isalnum long = true
         ∧ normalize_option long = Ok long).
Proof.
intros Hne. destruct parameter_name as [|c rest]; [done|].
exists c, rest, (String "-" (String c "")). split_and!; try done.
- intros ->. split; [done|].
  change (normalize_option
            ("--" +:+ replace_char "_" "-" (String (ascii_lower c) ""))
          = Raise AssertionError).
  cbn [replace_char]. by destruct (Ascii.eqb (ascii_lower c) "_").
- intros Hrest.
  set (long := "--" +:+ replace_char "_" "-" (lower (String c rest))).
  assert (len long = 3 + len rest) as Hlen.
  { unfold long.
    change (len (String "-" (String "-"
                   (replace_char "_" (String "-" "") (lower (String c rest)))))
            = 3 + len rest).
    rewrite !len_cons, len_replace_char, len_lower, len_cons. lia. }
  assert (1 ≤ len rest) as Hr.
  { destruct rest; [done|]. rewrite len_cons. pose proof (len_nonneg rest).
    lia. }
  assert (startswith "--" long = true) as Hdd by done.
  exists long. split_and!.
  + done.
  + unfold default_options_list. cbn -[len parameter_name_to_long_option].
    rewrite len_cons. destruct (Z.ltb_spec 1 (1 + len rest)); [done|lia].
  + unfold legal_option. rewrite Hdd.
    destruct (Z.leb_spec 4 (len long)); [|lia].
    by rewrite orb_true_r.
  + apply normalize_option_Ok. right. split_and!; [done|done|lia].
Qed.

End DerivedOptions.

Lemma default_options_are_normalizable_witness :
  default_options_list "verbose_mode" = Ok ["-v"; "--verbose-mode"]
  ∧ normalize_option "--verbose-mode" = Ok "--verbose-mode"
  ∧ normalize_option "-v" = Ok "v".
Proof.
destruct (default_options_are_normalizable (λ _, true) "verbose_mode"
            ltac:(done))
  as (c & rest & short & E & -> & _ & Hs & _ & H).
injection E as <- <-.
destruct (H ltac:(done)) as (long & El & Ed & _ & Hn).
injection El as <-. split_and!; [exact Ed|exact Hn|exact Hs].
Defined.

Section Validators.

Import ValidateRange.

(** X20.  [validate_range] with [clamp=True] never fails on a proper
  range: it returns the value of the range nearest to the one
  given, which is the value itself when that is in the range,
  and a second pass changes nothing. *)
Theorem validate_range_clamps (start stop value : Z) :
  start ≤ stop →
  ∃ v, call (validate_range start (Some stop) true) value = Ok v
       ∧ v = Z.max start (Z.min value stop)
       ∧ start ≤ v ≤ stop
       ∧ (start ≤ value ≤ stop → v = value)
       ∧ call (validate_range start (Some stop) true) v = Ok v.
Proof.
intros Hle. unfold call, validate_range. cbn [ValidateRange.start
  ValidateRange.stop ValidateRange.clamp negb].
destruct (Z.leb_spec start value), (Z.leb_spec value stop); cbn [andb negb].
- exists value. split_and!; try done; try lia.
  destruct (Z.leb_spec start value), (Z.leb_spec value stop); try lia. done.
- exists stop. destruct (Z.geb_spec value stop); [|lia].
  split_and!; try done; try lia.
  destruct (Z.leb_spec start stop), (Z.leb_spec stop stop); try lia. done.
- exists start. destruct (Z.geb_spec value stop); [lia|].
  split_and!; try done; try lia.
  destruct (Z.leb_spec start start), (Z.leb_spec start stop); try lia. done.
- lia.
Qed.

(** X21.  [validate_range] with one argument [n] and without
  clamping accepts exactly the integers between 0 and [n], in
  either order and with both ends included (the text of the
  error says that the upper end is excluded; the test includes
  it); it returns the value unchanged and refuses every other
  value with a usage error. *)
Theorem validate_range_one_argument (n value : Z) :
  (Z.min 0 n ≤ value ≤ Z.max 0 n
   ∧ call (validate_range n None false) value = Ok value)
  ∨ (¬ Z.min 0 n ≤ value ≤ Z.max 0 n
     ∧ call (validate_range n None false) value
       = Raise (AppealUsageError
           ("illegal value " +:+ pretty value +:+ ", should be "
            +:+ pretty (Z.min 0 n) +:+ " <= value < "
            +:+ pretty (Z.max 0 n)))).
Proof.
unfold call, validate_range.
destruct (Z.gtb_spec 0 n); cbn [ValidateRange.start ValidateRange.stop
  ValidateRange.clamp negb].
- rewrite Z.min_r, Z.max_l by lia.
  destruct (Z.leb_spec n value), (Z.leb_spec value 0); cbn [andb negb];
    [left|right..]; (split; [lia|done]).
- rewrite Z.min_l, Z.max_r by lia.
  destruct (Z.leb_spec 0 value), (Z.leb_spec value n); cbn [andb negb];
    [left|right..]; (split; [lia|done]).
Qed.

End Validators.

Lemma validate_range_clamps_witness :
  ValidateRange.call (ValidateRange.validate_range 1 (Some 10) true) 42
  = Ok 10.
Proof.
destruct (validate_range_clamps 1 10 42 ltac:(lia)) as (v & E & -> & _).
exact E.
Defined.

Section Counters.

Import Counter.

Lemma option_positive (c : Z) (m : Datatypes.option Z) (step : Z) :
  0 < step →
  option {| count := Int c;
            max := from_option Int PosInf m; step := step |}
  = Done {| count := Int (from_option (Z.min (c + step)) (c + step) m);
            max := from_option Int PosInf m; step := step |}.
Proof.
intros Hs. unfold option. cbn [Counter.step Counter.count Counter.max add].
destruct (Z.ltb_spec 0 step); [|lia]. f_equal. f_equal.
destruct m as [m|]; cbn; [|done]. unfold min. cbn.
destruct (Z.ltb_spec m (c + step)); f_equal; lia.
Qed.

Lemma options_positive (m : Datatypes.option Z) (step : Z) :
  0 < step → ∀ n c,
  options (S n) {| count := Int c;
                   max := from_option Int PosInf m; step := step |}
  = Done {| count := Int (from_option (Z.min (c + Z.of_nat (S n) * step))
                            (c + Z.of_nat (S n) * step) m);
            max := from_option Int PosInf m; step := step |}.
Proof.
intros Hs. induction n as [|n IH]; intros c.
- cbn [options]. rewrite option_positive by done.
  replace (Z.of_nat 1 * step) with step by lia. done.
- change (options (S (S n)) ?s)
    with (match option s with Done s' => options (S n) s' | e => e end).
  rewrite option_positive by done. rewrite IH. do 3 f_equal.
  assert (0 ≤ Z.of_nat n * step) by nia.
  destruct m as [m|]; cbn; lia.
Qed.

(** X22.  A counter with a positive step saturates.  After [option]
  has been called [n] times, at least once, the value rendered is
  the default plus [n] steps, or the maximum given to [counter]
  if that is smaller; without a maximum it is the default plus
  [n] steps. *)
Theorem counter_saturates (m : Datatypes.option Z) (step default : Z)
    (n : nat) :
  0 < step → (1 ≤ n)%nat →
  ∃ s0 s,
    init (Int <$> m) step default = Done s0
    ∧ options n s0 = Done s
    ∧ render s
      = Int (from_option (Z.min (default + Z.of_nat n * step))
               (default + Z.of_nat n * step) m).
Proof.
intros Hs Hn. destruct n as [|n]; [lia|].
unfold init. destruct (Z.eqb_spec step 0); [lia|].
destruct (Z.ltb_spec 0 step); [|lia].
eexists _, _. split; [reflexivity|].
replace (match Int <$> m with Some m0 => m0 | None => PosInf end)
  with (from_option Int PosInf m) by by destruct m.
rewrite options_positive by done. split; reflexivity.
Qed.

(** X23.  A counter with a negative step cannot count.  [init]
  accepts the step, but the first [option] raises [TypeError]:
  for a negative step [option] calls [max], and in the methods of
  the class that name is the number given to [counter] (or
  [-math.inf]), not the built-in function. *)
Theorem counter_negative_step_fails (max_cell : Datatypes.option number)
    (step default : Z) :
  step < 0 →
  ∃ s0, init max_cell step default = Done s0
        ∧ count s0 = Int default
        ∧ option s0 = TypeError.
Proof.
intros Hs. unfold init. destruct (Z.eqb_spec step 0); [lia|].
eexists. split; [reflexivity|]. split; [done|].
unfold option. cbn [Counter.step]. by destruct (Z.ltb_spec 0 step); [lia|].
Qed.

End Counters.

Lemma counter_saturates_witness :
  ∃ s0 s,
    Counter.init (Some (Counter.Int 3)) 1 0 = Counter.Done s0
    ∧ Counter.options 5 s0 = Counter.Done s
    ∧ Counter.render s = Counter.Int 3.
Proof.
destruct (counter_saturates (Some 3) 1 0 5 ltac:(lia) ltac:(lia))
  as (s0 & s & E0 & E & Hr).
exists s0, s. split_and!; [exact E0|exact E|exact Hr].
Defined.

Lemma counter_negative_step_fails_witness :
  ∃ s0,
    Counter.init None (-1) 10 = Counter.Done s0
    ∧ Counter.option s0 = Counter.TypeError.
Proof.
destruct (counter_negative_step_fails None (-1) 10 ltac:(lia))
  as (s0 & E0 & _ & E).
exists s0. split; [exact E0|exact E].
Defined.
